(** * onClickOutside: a shallow embedding of the outside-click detector

    Source: [packages/core/onClickOutside/index.ts].

    The detector is event-driven, stateful glue code.  It is embedded here
    with explicit state passing over a [World] that holds

    - the module-level flag [_iOSWorkaround],
    - one closure environment ([Frame]) per call of [onClickOutside] that
      got past the window check, holding the destructured options and the
      two mutable locals [shouldListen] and [stopDragListener],
    - the listeners registered on windows, in registration order,
    - the queue of pending [setTimeout(..., 0)] callbacks,
    - the log of handler invocations.

    Closures are defunctionalised: a callback is a code label together with
    the index of the frame it closes over.  DOM nodes, windows and element
    references are identified by natural numbers; [===] on nodes is
    equality of identifiers.  Pointer coordinates and [detail] are integers.

    What the function imports from elsewhere in the repository is not part
    of the sources at hand.  [unrefElement] and the document are read from
    an [Env] that every step of the event loop supplies afresh, since the
    element behind a reference may change between events; [isIOS] and
    [defaultWindow] are the fields of a [Platform]; [useEventListener] is
    modelled from its description.  [toValue], the other source at hand, is
    what [unrefElement] unwraps a reference with; the detector never calls
    it directly.  The user's handler is opaque: a call of it is recorded in
    the log and has no other effect on the world.

    One call in the detector can throw on data the caller supplies:
    [document.querySelectorAll] on an ignore entry that is not a valid
    selector.  The exception ends the listener it is raised in, with the
    effects that listener had up to there; the browser reports it and goes
    on with the next listener of the dispatch.

    The file has four parts: the embedding and the definitions the
    statements use, the lemmas about the embedding, the claims C1 to C10
    in order, and further properties X1 to X16 of the same code. *)

From Stdlib Require Import ZArith List Bool String Lia.
From stdpp Require Import base list.
Import ListNotations.

(** ** DOM and reactivity data *)

Definition Node := nat.
Definition Win := nat.
Definition Ref := nat.

Inductive EventType := click | pointerdown | pointermove | blur.

#[global] Instance EventType_eq_dec : EqDecision EventType.
Proof. solve_decision. Defined.

Record Event := mkEvent {
  ev_type : EventType;
  ev_target : option Node;      (* event.target *)
  composedPath : list Node;     (* event.composedPath() *)
  detail : Z;                   (* event.detail *)
  ev_x : Z;                     (* event.x *)
  ev_y : Z                      (* event.y *)
}.

(** The ambient state a callback can read when it runs: how element
    references resolve, and the document of the window.
    [document.querySelectorAll] throws a [SyntaxError] when its argument is
    not a valid selector; that outcome is [None]. *)
Record Env := mkEnv {
  unrefElement : Ref -> option Node;
  querySelectorAll : string -> option (list Node);  (* [None]: throws SyntaxError *)
  activeElement : option Node;
  tagName : Node -> string;
  contains : Node -> Node -> bool;   (* [contains el other] is el.contains(other) *)
  bodyChildren : list Node;          (* Array.from(document.body.children) *)
  documentElement : Node
}.

(** Constants imported from the shared package. *)
Record Platform := mkPlatform {
  isIOS : bool;
  defaultWindow : option Win
}.

(** ** Options *)

Inductive IgnoreEntry :=
| IgnoreSelector (selector : string)
| IgnoreRef (r : Ref).

Inductive IgnoreDragging :=
| DragBool (b : bool)
| DragObject (distance : option Z).

(** JavaScript truthiness of the [ignoreDragging] option: an object is
    always truthy. *)
Definition truthy (d : IgnoreDragging) : bool :=
  match d with
  | DragBool b => b
  | DragObject _ => true
  end.

(** [None] is an option that was not given. *)
Record Options := mkOptions {
  o_window : option Win;
  o_ignore : option (list IgnoreEntry);
  o_ignoreDragging : option IgnoreDragging;
  o_capture : option bool;
  o_detectIframe : option bool
}.

Definition no_options : Options := mkOptions None None None None None.

(** ** Closures, listeners and the world *)

(** The value [useEventListener] returns, and [noop]. *)
Inductive Fn :=
| noop
| removeListener (id : nat).

(** What [onClickOutside] returns: [noop], or the closure
    [() => cleanup.forEach(fn => fn())]. *)
Inductive StopHandle :=
| stop_noop
| stop (cleanup : list Fn).

Inductive Callback :=
| CbListener (i : nat)                  (* [listener], on click *)
| CbPointerDown (i : nat)               (* the pointerdown arrow function *)
| CbPointerMove (i : nat) (x y : Z)     (* the arrow function of [startDragListener] *)
| CbBlur (i : nat).                     (* the blur arrow function *)

Definition cb_frame (cb : Callback) : nat :=
  match cb with
  | CbListener i | CbPointerDown i | CbPointerMove i _ _ | CbBlur i => i
  end.

Record Registration := mkReg {
  reg_id : nat;
  reg_window : Win;
  reg_type : EventType;
  reg_cb : Callback;
  reg_passive : bool;
  reg_capture : bool
}.

Record Frame := mkFrame {
  target : Ref;
  handler : nat;
  window : Win;
  ignore : list IgnoreEntry;
  ignoreDragging : IgnoreDragging;
  capture : bool;
  detectIframe : bool;
  shouldListen : bool;
  stopDragListener : option Fn
}.

Record Call := mkCall {
  c_frame : nat;       (* the detector instance that made the call *)
  c_handler : nat;     (* the handler function that was called *)
  c_event : Event      (* its argument *)
}.

Record World := mkWorld {
  _iOSWorkaround : bool;
  frames : list Frame;
  registry : list Registration;
  next_id : nat;
  noopClick : list Node;           (* el.addEventListener('click', noop) calls *)
  timers : list (nat * Event);     (* pending setTimeout(..., 0) of the blur arrow *)
  calls : list Call
}.

Definition init : World := mkWorld false [] [] 0 [] [] [].

Definition set_frames (f : list Frame -> list Frame) (W : World) : World :=
  mkWorld (_iOSWorkaround W) (f (frames W)) (registry W) (next_id W)
          (noopClick W) (timers W) (calls W).

Definition set_registry (f : list Registration -> list Registration) (W : World) : World :=
  mkWorld (_iOSWorkaround W) (frames W) (f (registry W)) (next_id W)
          (noopClick W) (timers W) (calls W).

Definition set_shouldListen (i : nat) (b : bool) : World -> World :=
  set_frames (alter (fun fr =>
    mkFrame (target fr) (handler fr) (window fr) (ignore fr) (ignoreDragging fr)
            (capture fr) (detectIframe fr) b (stopDragListener fr)) i).

Definition set_stopDragListener (i : nat) (f : option Fn) : World -> World :=
  set_frames (alter (fun fr =>
    mkFrame (target fr) (handler fr) (window fr) (ignore fr) (ignoreDragging fr)
            (capture fr) (detectIframe fr) (shouldListen fr) f) i).

(** Modelled from the spec: [useEventListener] of [../useEventListener] is not
    among the sources.  The spec describes it as the low-level "add/remove
    event listener with options {passive, capture}" capability: the
    listener is added to the target at once, and the returned function
    removes that one listener (removing it again does nothing). *)
Definition useEventListener (w : Win) (ty : EventType) (cb : Callback)
    (passive capt : bool) (W : World) : Fn * World :=
  let id := next_id W in
  (removeListener id,
   mkWorld (_iOSWorkaround W) (frames W)
           (registry W ++ [mkReg id w ty cb passive capt]) (S id)
           (noopClick W) (timers W) (calls W)).

(** Calling a function value [fn()]. *)
Definition call (fn : Fn) (W : World) : World :=
  match fn with
  | noop => W
  | removeListener id =>
      set_registry (List.filter (fun r => negb (reg_id r =? id))) W
  end.

(** [fn?.()] *)
Definition call_opt (fn : option Fn) (W : World) : World :=
  match fn with
  | None => W
  | Some f => call f W
  end.

(** [handler(event)], from the closure of frame [i]: the user's handler is
    opaque, its invocation is recorded. *)
Definition call_handler (i : nat) (event : Event) (W : World) : World :=
  match frames W !! i with
  | None => W
  | Some fr =>
      mkWorld (_iOSWorkaround W) (frames W) (registry W) (next_id W)
              (noopClick W) (timers W) (calls W ++ [mkCall i (handler fr) event])
  end.

(** Reading the local [shouldListen] of frame [i]. *)
Definition get_shouldListen (i : nat) (W : World) : bool :=
  match frames W !! i with
  | None => false
  | Some fr => shouldListen fr
  end.

(** ** The closures of [onClickOutside] *)

(** [path.includes(el)] *)
Definition includes (path : list Node) (el : Node) : bool :=
  existsb (Nat.eqb el) path.

(** [el === event.target] *)
Definition is_target (event : Event) (el : Node) : bool :=
  match ev_target event with
  | Some t => t =? el
  | None => false
  end.

(** [array.some(f)] for a callback that may throw: the elements are tried
    in order, the first one [f] answers true for ends the search, and so
    does an exception, which is the outcome [None]. *)
Fixpoint array_some {A} (f : A -> option bool) (l : list A) : option bool :=
  match l with
  | [] => Some false
  | x :: l =>
      match f x with
      | None => None
      | Some true => Some true
      | Some false => array_some f l
      end
  end.

(** The callback of [ignore.some] (lines 88-97) on one entry. *)
Definition ignores (env : Env) (event : Event) (entry : IgnoreEntry) : option bool :=
  match entry with
  | IgnoreSelector s =>
      match querySelectorAll env s with
      | None => None
      | Some els =>
          Some (existsb (fun el => is_target event el || includes (composedPath event) el)
                        els)
      end
  | IgnoreRef r =>
      Some match unrefElement env r with
           | None => false
           | Some el => is_target event el || includes (composedPath event) el
           end
  end.

(** [shouldIgnore] (lines 87-98): some entry of [ignore] is, or selects,
    an element that is the event's target or lies on its composed path.
    The entries are tried in order; an invalid selector that is reached
    makes the call throw ([None]). *)
Definition shouldIgnore (env : Env) (ign : list IgnoreEntry) (event : Event)
    : option bool :=
  array_some (ignores env event) ign.

(** [startDragListener] (lines 76-85): a pointermove listener closed over
    the coordinates of [e] is added and its remover is stored in
    [stopDragListener], whatever that held before. *)
Definition startDragListener (i : nat) (e : Event) (W : World) : World :=
  match frames W !! i with
  | None => W
  | Some fr =>
      let '(fn, W) :=
        useEventListener (window fr) pointermove (CbPointerMove i (ev_x e) (ev_y e))
                         false false W in
      set_stopDragListener i (Some fn) W
  end.

(** The pointermove arrow function created by [startDragListener] (lines
    77-84), closed over the origin [(x, y)].  The threshold is the literal
    4; [stopDragListener] is read when the callback runs. *)
Definition onPointerMove (i : nat) (x y : Z) (e : Event) (W : World) : World :=
  let dX := Z.abs (x - ev_x e) in
  let dY := Z.abs (y - ev_y e) in
  if (4 <? dX + dY)%Z then
    let W := set_shouldListen i false W in
    match frames W !! i with
    | None => W
    | Some fr => call_opt (stopDragListener fr) W
    end
  else W.

(** Lines 110-115 of [listener]: the test of [shouldListen]. *)
Definition listener_test (i : nat) (event : Event) (W : World) : World :=
  if negb (get_shouldListen i W) then set_shouldListen i true W
  else call_handler i event W.

(** [listener] (lines 100-116), registered for click.  When [shouldIgnore]
    throws at line 108 the listener ends there: the tracking listener is
    removed already, nothing is assigned and the handler is not called.
    The exception of a listener does not stop the dispatch. *)
Definition listener (i : nat) (env : Env) (event : Event) (W : World) : World :=
  match frames W !! i with
  | None => W
  | Some fr =>
      let W := call_opt (stopDragListener fr) W in
      match unrefElement env (target fr) with
      | None => W
      | Some el =>
          if is_target event el || includes (composedPath event) el then W
          else if (detail event =? 0)%Z
          then match shouldIgnore env (ignore fr) event with
               | None => W
               | Some ign => listener_test i event (set_shouldListen i (negb ign) W)
               end
          else listener_test i event W
      end
  end.

(** The pointerdown arrow function (lines 120-125).  [shouldIgnore(e)] is
    the first operand at line 122; when it throws, nothing is assigned and
    no tracking starts. *)
Definition onPointerDown (i : nat) (env : Env) (e : Event) (W : World) : World :=
  match frames W !! i with
  | None => W
  | Some fr =>
      match shouldIgnore env (ignore fr) e with
      | None => W
      | Some ign =>
          let sl :=
            negb ign
            && match unrefElement env (target fr) with
               | None => false
               | Some el => negb (includes (composedPath e) el)
               end in
          let W := set_shouldListen i sl W in
          if sl && truthy (ignoreDragging fr) then startDragListener i e W else W
      end
  end.

(** The blur arrow function (lines 126-136): it only schedules the check. *)
Definition onBlur (i : nat) (event : Event) (W : World) : World :=
  mkWorld (_iOSWorkaround W) (frames W) (registry W) (next_id W)
          (noopClick W) (timers W ++ [(i, event)]) (calls W).

(** The function given to [setTimeout] by the blur arrow function (lines
    127-135).  [activeElement?.tagName === 'IFRAME'] is false without an
    active element; [el?.contains(...)] is [undefined] without an element,
    and its negation is true. *)
Definition onBlurTimeout (i : nat) (env : Env) (event : Event) (W : World) : World :=
  match frames W !! i with
  | None => W
  | Some fr =>
      let isIframe :=
        match activeElement env with
        | None => false
        | Some a => String.eqb (tagName env a) "IFRAME"
        end in
      let inside :=
        match unrefElement env (target fr), activeElement env with
        | Some el, Some a => contains env el a
        | _, _ => false
        end in
      if isIframe && negb inside then call_handler i event W else W
  end.

(** ** [onClickOutside] *)

(** The body of [if (isIOS && !_iOSWorkaround)]. *)
Definition apply_iOSWorkaround (env : Env) (W : World) : World :=
  mkWorld true (frames W) (registry W) (next_id W)
          (noopClick W ++ bodyChildren env ++ [documentElement env])
          (timers W) (calls W).

(** [onClickOutside(target, handler, options)] (lines 48-142).  [env] is
    the state of [window.document] at the time of the call, [h] names the
    handler function.  The new frame takes the next free index, the
    listeners are added in the order of the [cleanup] array, and
    [filter(Boolean)] drops the [false] left by [detectIframe && ...]. *)
Definition onClickOutside (P : Platform) (env : Env) (tgt : Ref) (h : nat)
    (options : Options) (W : World) : StopHandle * World :=
  let window := match o_window options with
                | Some w => Some w
                | None => defaultWindow P
                end in
  let ignore := default [] (o_ignore options) in
  let ignoreDragging := default (DragBool false) (o_ignoreDragging options) in
  let capture := default true (o_capture options) in
  let detectIframe := default false (o_detectIframe options) in
  match window with
  | None => (stop_noop, W)
  | Some window =>
      let W := if isIOS P && negb (_iOSWorkaround W)
               then apply_iOSWorkaround env W else W in
      let i := length (frames W) in
      let W := set_frames (fun fs => fs ++
                 [mkFrame tgt h window ignore ignoreDragging capture detectIframe
                          true None]) W in
      let '(c1, W) := useEventListener window click (CbListener i) true capture W in
      let '(c2, W) := useEventListener window pointerdown (CbPointerDown i) true false W in
      let '(c3, W) :=
        if detectIframe
        then let '(fn, W) := useEventListener window blur (CbBlur i) false false W in
             (Some fn, W)
        else (None, W) in
      (stop (omap id [Some c1; Some c2; c3]), W)
  end.

(** Calling the value [onClickOutside] returned (line 139). *)
Definition call_stop (s : StopHandle) (W : World) : World :=
  match s with
  | stop_noop => W
  | stop cleanup => fold_left (fun W fn => call fn W) cleanup W
  end.

(** ** The event loop *)

(** Listener [id] is still on its window. *)
Definition registered (id : nat) (W : World) : bool :=
  existsb (fun r => reg_id r =? id) (registry W).

(** Running a closure on an event. *)
Definition invoke (cb : Callback) (env : Env) (e : Event) (W : World) : World :=
  match cb with
  | CbListener i => listener i env e W
  | CbPointerDown i => onPointerDown i env e W
  | CbPointerMove i x y => onPointerMove i x y e W
  | CbBlur i => onBlur i e W
  end.

(** [r] is a listener of window [w] for events of type [ty]. *)
Definition listens (w : Win) (ty : EventType) (r : Registration) : bool :=
  (reg_window r =? w) && bool_decide (reg_type r = ty).

(** The listeners an event reaching window [w] runs: those registered when
    the dispatch starts, the capturing ones first, each group in
    registration order. *)
Definition dispatch_order (w : Win) (ty : EventType) (W : World) : list Registration :=
  let snap := List.filter (listens w ty) (registry W) in
  List.filter reg_capture snap ++ List.filter (fun r => negb (reg_capture r)) snap.

(** One listener of the snapshot: it is skipped when an earlier listener of
    the same dispatch removed it. *)
Definition run_listener (env : Env) (e : Event) (W : World) (r : Registration) : World :=
  if registered (reg_id r) W then invoke (reg_cb r) env e W else W.

(** An event reaches window [w]. *)
Definition dispatchEvent (w : Win) (env : Env) (e : Event) (W : World) : World :=
  fold_left (run_listener env e) (dispatch_order w (ev_type e) W) W.

(** The event loop runs the oldest pending timer. *)
Definition runTimer (env : Env) (W : World) : World :=
  match timers W with
  | [] => W
  | (i, e) :: rest =>
      onBlurTimeout i env e
        (mkWorld (_iOSWorkaround W) (frames W) (registry W) (next_id W)
                 (noopClick W) rest (calls W))
  end.

(** What the page and the user do, one step at a time.  The stop handles
    returned so far are kept next to the world; [Stop k] calls the handle
    returned by the [k]-th call of [onClickOutside]. *)
Inductive Step :=
| Install (env : Env) (tgt : Ref) (h : nat) (options : Options)
| Stop (k : nat)
| Dispatch (w : Win) (env : Env) (e : Event)
| Timeout (env : Env).

Record Session := mkSession {
  world : World;
  handles : list StopHandle
}.

Definition start : Session := mkSession init [].

Definition step (P : Platform) (s : Session) (st : Step) : Session :=
  match st with
  | Install env tgt h options =>
      let '(sh, W) := onClickOutside P env tgt h options (world s) in
      mkSession W (handles s ++ [sh])
  | Stop k =>
      match handles s !! k with
      | None => s
      | Some sh => mkSession (call_stop sh (world s)) (handles s)
      end
  | Dispatch w env e => mkSession (dispatchEvent w env e (world s)) (handles s)
  | Timeout env => mkSession (runTimer env (world s)) (handles s)
  end.

Definition run (P : Platform) (tr : list Step) (s : Session) : Session :=
  fold_left (step P) tr s.

(** Handler invocations made by detector instance [i]. *)
Definition calls_of (i : nat) (W : World) : list Event :=
  map c_event (List.filter (fun c => c_frame c =? i) (calls W)).

(** ** Well-formed worlds *)

Definition cb_type (cb : Callback) : EventType :=
  match cb with
  | CbListener _ => click
  | CbPointerDown _ => pointerdown
  | CbPointerMove _ _ _ => pointermove
  | CbBlur _ => blur
  end.

(** What every world the event loop can reach satisfies: listener
    identifiers are fresh and distinct, every listener runs the closure
    registered for its event type on the window of its frame, a
    [stopDragListener] can only remove a pointermove listener, and the
    click, pointerdown and blur closures of a frame are registered at most
    once. *)
Record wf (W : World) : Prop := mk_wf {
  wf_fresh : forall r, In r (registry W) -> reg_id r < next_id W;
  wf_nodup : List.NoDup (map reg_id (registry W));
  wf_typed : forall r, In r (registry W) -> reg_type r = cb_type (reg_cb r);
  wf_owner : forall r, In r (registry W) ->
      exists fr, frames W !! cb_frame (reg_cb r) = Some fr /\ reg_window r = window fr;
  wf_drag : forall i fr id,
      frames W !! i = Some fr -> stopDragListener fr = Some (removeListener id) ->
      id < next_id W /\
      forall r, In r (registry W) -> reg_id r = id -> reg_type r = pointermove;
  wf_single : forall r r', In r (registry W) -> In r' (registry W) ->
      reg_cb r = reg_cb r' -> reg_type r <> pointermove -> r = r'
}.

(** ** Summaries used in the statements *)

(** The [window] the destructuring of the options yields. *)
Definition resolved_window (P : Platform) (options : Options) : option Win :=
  match o_window options with
  | Some w => Some w
  | None => defaultWindow P
  end.

(** The closure environment a call creates. *)
Definition new_frame (tgt : Ref) (h : nat) (w : Win) (options : Options) : Frame :=
  mkFrame tgt h w (default [] (o_ignore options))
          (default (DragBool false) (o_ignoreDragging options))
          (default true (o_capture options))
          (default false (o_detectIframe options)) true None.

(** The world after a call that has a window, registration by registration. *)
Definition installed (P : Platform) (env : Env) (tgt : Ref) (h : nat) (w : Win)
    (options : Options) (W : World) : World :=
  let W0 := if isIOS P && negb (_iOSWorkaround W) then apply_iOSWorkaround env W else W in
  let i := length (frames W0) in
  let W1 := set_frames (fun fs => fs ++ [new_frame tgt h w options]) W0 in
  let W2 := snd (useEventListener w click (CbListener i) true
                   (default true (o_capture options)) W1) in
  let W3 := snd (useEventListener w pointerdown (CbPointerDown i) true false W2) in
  if default false (o_detectIframe options)
  then snd (useEventListener w blur (CbBlur i) false false W3)
  else W3.

(** The listeners a call registers, for frame [i] and from identifier [n]
    on, and the functions that remove them. *)
Definition new_listeners (i n : nat) (w : Win) (options : Options) : list Registration :=
  [mkReg n w click (CbListener i) true (default true (o_capture options));
   mkReg (S n) w pointerdown (CbPointerDown i) true false]
  ++ (if default false (o_detectIframe options)
      then [mkReg (S (S n)) w blur (CbBlur i) false false] else []).

(** The [cleanup] array of that call. *)
Definition new_cleanup (n : nat) (options : Options) : list Fn :=
  [removeListener n; removeListener (S n)]
  ++ (if default false (o_detectIframe options) then [removeListener (S (S n))] else []).

(** [el] is the event's target or lies on its composed path. *)
Definition inside (e : Event) (el : Node) : bool :=
  is_target e el || includes (composedPath e) el.

(** The value of [shouldListen] that [listener] tests, for a click that got
    past the inside check; [None] when the listener does not get to the
    test because [shouldIgnore] throws. *)
Definition click_fires (env : Env) (fr : Frame) (e : Event) : option bool :=
  if (detail e =? 0)%Z
  then match shouldIgnore env (ignore fr) e with
       | None => None
       | Some ign => Some (negb ign)
       end
  else Some (shouldListen fr).

(** What one run of [listener] adds to the handler calls of its frame, and
    the value it leaves in [shouldListen]. *)
Definition listener_calls (env : Env) (fr : Frame) (e : Event) : list Event :=
  match unrefElement env (target fr) with
  | None => []
  | Some el =>
      if inside e el then []
      else match click_fires env fr e with
           | Some true => [e]
           | _ => []
           end
  end.

Definition listener_shouldListen (env : Env) (fr : Frame) (e : Event) : bool :=
  match unrefElement env (target fr) with
  | None => shouldListen fr
  | Some el =>
      if inside e el then shouldListen fr
      else match click_fires env fr e with
           | None => shouldListen fr
           | Some _ => true
           end
  end.

(** Listeners of the other detector instances. *)
Definition other_frames (i : nat) (l : list Registration) : Prop :=
  forall r, In r l -> i <> cb_frame (reg_cb r).

(** The value the pointerdown arrow function assigns to [shouldListen];
    [None] when it assigns nothing because [shouldIgnore] throws. *)
Definition pointerdown_shouldListen (env : Env) (fr : Frame) (e : Event)
    : option bool :=
  match shouldIgnore env (ignore fr) e with
  | None => None
  | Some ign =>
      Some (negb ign
            && match unrefElement env (target fr) with
               | None => false
               | Some el => negb (includes (composedPath e) el)
               end)
  end.

(** The check made by the deferred blur callback; it reads the document
    and the target reference and nothing else. *)
Definition blur_check (env : Env) (tgt : Ref) : bool :=
  match activeElement env with
  | None => false
  | Some a =>
      String.eqb (tagName env a) "IFRAME"
      && negb (match unrefElement env tgt with
               | Some el => contains env el a
               | None => false
               end)
  end.

(** [ts] appended to the pending timers. *)
Definition add_timers (ts : list (nat * Event)) (W : World) : World :=
  mkWorld (_iOSWorkaround W) (frames W) (registry W) (next_id W)
          (noopClick W) (timers W ++ ts) (calls W).

(** Deferred checks pending for detector instance [i]. *)
Definition timers_of (i : nat) (W : World) : list Event :=
  map snd (List.filter (fun t => fst t =? i) (timers W)).

(** A property of worlds kept by every state change the closures make. *)
Record prim_stable (I : World -> Prop) : Prop := mk_prim_stable {
  ps_shouldListen : forall i b W, I W -> I (set_shouldListen i b W);
  ps_stopDrag : forall i f W, I W -> I (set_stopDragListener i f W);
  ps_call : forall fn W, I W -> I (call fn W);
  ps_track : forall w i x y W, I W ->
      I (snd (useEventListener w pointermove (CbPointerMove i x y) false false W));
  ps_handler : forall i e W, I W -> I (call_handler i e W);
  ps_blur : forall i e W, I W -> I (onBlur i e W);
  ps_pop : forall W rest, I W ->
      I (mkWorld (_iOSWorkaround W) (frames W) (registry W) (next_id W)
                 (noopClick W) rest (calls W))
}.

(** The handler function [h] has not been given to a detector and has
    not been called. *)
Definition unused (h : nat) (W : World) : Prop :=
  (forall i fr, frames W !! i = Some fr -> handler fr <> h) /\
  (forall c, In c (calls W) -> c_handler c <> h).

(** [cleanup] removes every listener of frame [i] other than its
    pointermove listeners. *)
Definition covered (i : nat) (cleanup : list Fn) (W : World) : Prop :=
  i < length (frames W) /\
  forall r, In r (registry W) -> cb_frame (reg_cb r) = i ->
            reg_type r <> pointermove -> In (removeListener (reg_id r)) cleanup.

(** Calls of [onClickOutside] in the rest of the trace are given other
    handler functions than [h]. *)
Definition installs_other (h : nat) (st : Step) : Prop :=
  match st with
  | Install _ _ h' _ => h' <> h
  | _ => True
  end.

(** On iOS the flag is set exactly when a detector has been created, and
    nothing was patched before. *)
Definition workaround_tracks_frames (W : World) : Prop :=
  (_iOSWorkaround W = false /\ noopClick W = [] /\ length (frames W) = 0)
  \/ (_iOSWorkaround W = true /\ 0 < length (frames W)).

(** The pointermove listeners of detector instance [i] that are still
    registered. *)
Definition drag_subscriptions (i : nat) (W : World) : list Registration :=
  List.filter (fun r => bool_decide (reg_type r = pointermove)
                        && (cb_frame (reg_cb r) =? i)) (registry W).

(** ** A page to run the detector on

    Element 10 is the watched element (reference 0) and 11 a child of it;
    40 is a toolbar (reference 1, selector ".toolbar"); 50 is an iframe
    outside the watched element (reference 2) and 51 one inside it; 30 is
    some other element; 2 and 3 are the children of the body and 1 is the root.
    Every other reference resolves to nothing.  The empty string is not a
    selector, and every other selector than ".toolbar" selects nothing.
    [focus] is the active element. *)

Definition page_with (watched : option Node) (focus : option Node) : Env :=
  mkEnv (fun r => match r with 0 => watched | 1 => Some 40 | 2 => Some 50 | _ => None end)
        (fun s => if String.eqb s ".toolbar" then Some [40]
                  else if String.eqb s EmptyString then None else Some [])
        focus
        (fun n => match n with 50 | 51 => "IFRAME" | _ => "DIV" end)%string
        (fun el other => (el =? 10) && ((other =? 10) || (other =? 11) || (other =? 51)))
        [2; 3] 1.

Definition page (focus : option Node) : Env := page_with (Some 10) focus.

(** The same page before the watched element is mounted. *)
Definition page_unmounted : Env := page_with None None.

(** Three platforms: a browser, a browser on iOS, and a process without a
    window. *)
Definition desktop : Platform := mkPlatform false (Some 0).
Definition iPhone : Platform := mkPlatform true (Some 0).
Definition server : Platform := mkPlatform false None.

(** Events on element [n], or inside the watched element, and a blur of
    the window. *)
Definition click_at (n : Node) (d : Z) : Event :=
  mkEvent click (Some n) [n; 2; 1] d 0 0.
Definition click_in_child : Event :=
  mkEvent click (Some 11) [11; 10; 2; 1] 1 0 0.
Definition pointerdown_at (n : Node) (x y : Z) : Event :=
  mkEvent pointerdown (Some n) [n; 2; 1] 1 x y.
Definition pointerdown_in_child : Event :=
  mkEvent pointerdown (Some 11) [11; 10; 2; 1] 1 0 0.
Definition pointermove_to (x y : Z) : Event :=
  mkEvent pointermove (Some 30) [30; 2; 1] 0 x y.
Definition blur_event : Event :=
  mkEvent blur None [] 0 0 0.

(** Option objects. *)
Definition toolbar_ignored : Options :=
  mkOptions None (Some [IgnoreSelector ".toolbar"]) None None None.

Definition iframe_detecting : Options :=
  mkOptions None None None None (Some true).

Definition iframe_ignored_dragging : Options :=
  mkOptions None (Some [IgnoreRef 2]) (Some (DragBool true)) None (Some true).

Definition dragging (distance : option Z) : Options :=
  mkOptions None None (Some (DragObject distance)) None None.

(** A press outside the watched element with drag tracking switched on,
    a small move, and then the window loses focus. *)
Definition mid_gesture : list Step :=
  [Install (page None) 0 7 iframe_ignored_dragging;
   Dispatch 0 (page None) (pointerdown_at 30 0 0);
   Dispatch 0 (page None) (pointermove_to 2 0)].

(** A press outside the watched element at the origin, one move to
    [(x, y)], and the click that ends the gesture. *)
Definition gesture (distance : option Z) (x y : Z) : list Step :=
  [Install (page None) 0 7 (dragging distance);
   Dispatch 0 (page None) (pointerdown_at 30 0 0);
   Dispatch 0 (page None) (pointermove_to x y);
   Dispatch 0 (page None) (click_at 30 1)].

(** Two presses outside the watched element, no click in between. *)
Definition two_presses : list Step :=
  [Install (page None) 0 7 (dragging None);
   Dispatch 0 (page None) (pointerdown_at 30 0 0);
   Dispatch 0 (page None) (pointerdown_at 30 5 5)].

(** A press outside the watched element, then the stop handle. *)
Definition stopped_mid_gesture : list Step :=
  [Install (page None) 0 7 (dragging None);
   Dispatch 0 (page None) (pointerdown_at 30 0 0);
   Stop 0].

(** The second half of C1 as the spec words it, at one trace and one
    click: an outside click that matches no ignore entry calls the handler
    once.  Drag suppression is excluded by [ignoreDragging] being falsy,
    and the synthetic case by [detail] not being 0. *)
Definition outside_click_claim (P : Platform) (tr : list Step) (i : nat)
    (env : Env) (e : Event) : Prop :=
  forall fr r el,
    frames (world (run P tr start)) !! i = Some fr ->
    In r (registry (world (run P tr start))) -> reg_cb r = CbListener i ->
    ev_type e = click ->
    unrefElement env (target fr) = Some el ->
    inside e el = false ->
    shouldIgnore env (ignore fr) e = Some false ->
    truthy (ignoreDragging fr) = false ->
    detail e <> 0%Z ->
    calls_of i (dispatchEvent (window fr) env e (world (run P tr start)))
      = calls_of i (world (run P tr start)) ++ [e].

(** An ignore list with the toolbar and a string that is not a selector. *)
Definition toolbar_and_invalid_ignored : Options :=
  mkOptions None (Some [IgnoreSelector ".toolbar"; IgnoreSelector EmptyString])
            None None None.

(** An ignore entry matches the event, as the spec words the ignore check:
    a string matches when the selector query yields the event's target or
    an element of its composed path, a reference when it resolves to
    one.  A string that is not a selector yields no element. *)
Definition entry_matches (env : Env) (e : Event) (entry : IgnoreEntry) : bool :=
  match entry with
  | IgnoreSelector s => existsb (inside e) (default [] (querySelectorAll env s))
  | IgnoreRef r =>
      match unrefElement env r with
      | None => false
      | Some el => inside e el
      end
  end.

(** C8 as the spec words it, at one trace and one click with [detail] 0
    outside the resolved watched element: [shouldListen] is recomputed from
    the ignore check, and when it is false the call is suppressed and the
    flag reset.  So the handler is called exactly when no ignore entry
    matches, and [shouldListen] is true afterwards. *)
Definition synthetic_click_claim (P : Platform) (tr : list Step) (i : nat)
    (env : Env) (e : Event) : Prop :=
  forall fr r el,
    frames (world (run P tr start)) !! i = Some fr ->
    In r (registry (world (run P tr start))) -> reg_cb r = CbListener i ->
    ev_type e = click ->
    unrefElement env (target fr) = Some el ->
    inside e el = false ->
    detail e = 0%Z ->
    calls_of i (dispatchEvent (window fr) env e (world (run P tr start)))
      = calls_of i (world (run P tr start))
        ++ (if existsb (entry_matches env e) (ignore fr) then [] else [e]) /\
    get_shouldListen i (dispatchEvent (window fr) env e (world (run P tr start)))
      = true.

(** ** [toValue]

    Source: the shared helper [toValue] (also exported as [resolveUnref]).
    A JavaScript value is a function, a framework ref, or anything else;
    the heap gives what a ref holds and what a getter returns.  [unref] is
    the framework's: [r.value] for a ref and [r] itself otherwise. *)

Inductive Value :=
| VPlain (n : nat)      (* neither a function nor a ref *)
| VRef (cell : nat)     (* a ref object *)
| VFn (g : nat).        (* a function *)

Record Heap := mkHeap {
  ref_value : nat -> Value;     (* r.value *)
  fn_result : nat -> Value      (* r() *)
}.

Definition unref (hp : Heap) (r : Value) : Value :=
  match r with
  | VRef c => ref_value hp c
  | _ => r
  end.

(** [typeof r === 'function' ? r() : unref(r)] *)
Definition toValue (hp : Heap) (r : Value) : Value :=
  match r with
  | VFn g => fn_result hp g
  | _ => unref hp r
  end.

Definition resolveUnref : Heap -> Value -> Value := toValue.

Definition is_plain (v : Value) : bool :=
  match v with
  | VPlain _ => true
  | _ => false
  end.

(** ** Definitions for the further properties *)

(** [fr'] is the closure environment [fr] up to its two mutable locals. *)
Definition same_closure (fr fr' : Frame) : Prop :=
  target fr' = target fr /\ handler fr' = handler fr /\ window fr' = window fr /\
  ignore fr' = ignore fr /\ ignoreDragging fr' = ignoreDragging fr /\
  capture fr' = capture fr /\ detectIframe fr' = detectIframe fr.

Definition has_closure (i : nat) (fr : Frame) (W : World) : Prop :=
  exists fr', frames W !! i = Some fr' /\ same_closure fr fr'.

(** An ignore entry designates element [el]. *)
Definition designates (env : Env) (entry : IgnoreEntry) (el : Node) : Prop :=
  match entry with
  | IgnoreSelector s => exists els, querySelectorAll env s = Some els /\ In el els
  | IgnoreRef r => unrefElement env r = Some el
  end.

(** What a stop handle keeps of the listeners. *)
Definition kept_by (cleanup : list Fn) (r : Registration) : bool :=
  forallb (fun fn => match fn with
                     | noop => true
                     | removeListener id => negb (reg_id r =? id)
                     end) cleanup.

(** Pointermove listeners belong to frames whose [ignoreDragging] is
    truthy, and the other frames never hold a remover. *)
Definition drag_only_when_asked (W : World) : Prop :=
  (forall r, In r (registry W) -> reg_type r = pointermove ->
     exists fr, frames W !! cb_frame (reg_cb r) = Some fr /\
                truthy (ignoreDragging fr) = true) /\
  (forall i fr, frames W !! i = Some fr -> truthy (ignoreDragging fr) = false ->
     stopDragListener fr = None).

(** Frame [j] exists and was created with [detectIframe]. *)
Definition detects_iframe (j : nat) (W : World) : Prop :=
  exists fr, frames W !! j = Some fr /\ detectIframe fr = true.

(** Blur listeners and pending checks belong to frames with
    [detectIframe]; pending checks carry blur events; a handler was called
    with a click, or with a blur by a frame with [detectIframe]. *)
Definition events_typed (W : World) : Prop :=
  (forall r j, In r (registry W) -> reg_cb r = CbBlur j -> detects_iframe j W) /\
  (forall j e, In (j, e) (timers W) -> ev_type e = blur /\ detects_iframe j W) /\
  (forall c, In c (calls W) ->
     ev_type (c_event c) = click \/
     (ev_type (c_event c) = blur /\ detects_iframe (c_frame c) W)).

(** Every recorded call was made by an existing frame. *)
Definition calls_by_frames (W : World) : Prop :=
  forall c, In c (calls W) -> c_frame c < length (frames W).

(** Frame [i] has no pointermove listener. *)
Definition untracked (i : nat) (W : World) : Prop :=
  forall r, In r (registry W) -> reg_type r = pointermove -> cb_frame (reg_cb r) <> i.

(** Every pointermove listener of frame [i] is the one its
    [stopDragListener] removes. *)
Definition tracked_by_remover (i : nat) (W : World) : Prop :=
  forall r, In r (registry W) -> reg_type r = pointermove -> cb_frame (reg_cb r) = i ->
    exists fr, frames W !! i = Some fr /\
               stopDragListener fr = Some (removeListener (reg_id r)).

(** A second window, with a detector of its own. *)
Definition in_window (w : Win) : Options :=
  mkOptions (Some w) None None None None.

(** * Proofs *)

(** ** The primitives, field by field *)

Section Primitives.
Context (W : World).

Lemma alter_lookup_inv {A} (f : A -> A) (l : list A) i j y :
  alter f i l !! j = Some y ->
  exists x, l !! j = Some x /\ (y = x \/ (i = j /\ y = f x)).
Proof.
  destruct (decide (i = j)) as [->|Hne].
  - rewrite list_lookup_alter_eq. destruct (l !! j) as [x|]; simpl; [|discriminate].
    intros [= <-]. eauto.
  - rewrite list_lookup_alter_ne by done. eauto.
Qed.

Lemma alter_lookup_fwd {A} (f : A -> A) (l : list A) i j x :
  l !! j = Some x ->
  exists y, alter f i l !! j = Some y /\ (y = x \/ (i = j /\ y = f x)).
Proof.
  intros H. destruct (decide (i = j)) as [->|Hne].
  - rewrite list_lookup_alter_eq, H. simpl. eauto.
  - rewrite list_lookup_alter_ne by done. eauto.
Qed.

Lemma In_filter_sub {A} (p : A -> bool) (l : list A) x :
  In x (List.filter p l) -> In x l.
Proof. intros H. apply filter_In in H. tauto. Qed.

Lemma NoDup_map_filter {A B} (g : A -> B) (p : A -> bool) (l : list A) :
  List.NoDup (map g l) -> List.NoDup (map g (List.filter p l)).
Proof.
  induction l as [|a l IH]; simpl; intros H; [constructor|].
  inversion_clear H as [|? ? Hnot Hnd].
  destruct (p a); simpl; auto.
  constructor; auto.
  intros Hin. apply Hnot. apply in_map_iff in Hin as (x & <- & Hx).
  apply in_map. eapply In_filter_sub; eauto.
Qed.

Lemma wf_set_shouldListen i b : wf W -> wf (set_shouldListen i b W).
Proof.
  intros [H1 H2 H3 H4 H5 H6]. split; simpl; auto.
  - intros r Hr. destruct (H4 r Hr) as (fr & Hfr & Hw).
    eapply alter_lookup_fwd in Hfr as (y & Hy & [->|[_ ->]]); eauto.
  - intros j fr id Hfr Hs.
    apply alter_lookup_inv in Hfr as (x & Hx & [->|[_ ->]]); eauto.
Qed.

Lemma wf_call fn : wf W -> wf (call fn W).
Proof.
  intros [H1 H2 H3 H4 H5 H6]. destruct fn as [|id]; simpl; [by split|].
  split; simpl.
  - intros r Hr. apply H1. eapply In_filter_sub; eauto.
  - by apply NoDup_map_filter.
  - intros r Hr. apply H3. eapply In_filter_sub; eauto.
  - intros r Hr. apply H4. eapply In_filter_sub; eauto.
  - intros j fr id' Hfr Hs. destruct (H5 j fr id' Hfr Hs) as [Hlt Hty].
    split; [done|]. intros r Hr. apply Hty. eapply In_filter_sub; eauto.
  - intros r r' Hr Hr'. apply H6; eapply In_filter_sub; eauto.
Qed.

Lemma wf_call_opt fn : wf W -> wf (call_opt fn W).
Proof. destruct fn; simpl; auto using wf_call. Qed.

Lemma wf_call_handler i e : wf W -> wf (call_handler i e W).
Proof.
  intros H. unfold call_handler. destruct (frames W !! i); [|done].
  destruct H. by split.
Qed.

Lemma wf_onBlur i e : wf W -> wf (onBlur i e W).
Proof. intros []. by split. Qed.

Lemma wf_cb_frame_lt r :
  wf W -> In r (registry W) -> cb_frame (reg_cb r) < length (frames W).
Proof.
  intros H Hr. destruct (wf_owner W H r Hr) as (fr & Hfr & _).
  eapply lookup_lt_Some; eauto.
Qed.

Lemma wf_useEventListener w ty cb passive capt fr :
  wf W -> ty = cb_type cb -> frames W !! cb_frame cb = Some fr -> w = window fr ->
  (ty <> pointermove -> forall r, In r (registry W) -> reg_cb r <> cb) ->
  wf (snd (useEventListener w ty cb passive capt W)).
Proof.
  intros [H1 H2 H3 H4 H5 H6] Hty Hfr Hw Hnew. split; simpl.
  - intros r [Hr|[<-|[]]]%in_app_iff; simpl; [apply H1 in Hr|]; lia.
  - rewrite map_app. apply List.NoDup_app; simpl; auto.
    + repeat constructor. intros [].
    + intros a Ha [<-|[]]. apply in_map_iff in Ha as (r & Hid & Hr).
      apply H1 in Hr. lia.
  - intros r [Hr|[<-|[]]]%in_app_iff; simpl; auto.
  - intros r [Hr|[<-|[]]]%in_app_iff; simpl; eauto.
  - intros j fr' id Hj Hs. destruct (H5 j fr' id Hj Hs) as [Hlt Hmv].
    split; [lia|].
    intros r [Hr|[<-|[]]]%in_app_iff; simpl; auto. lia.
  - intros r r' [Hr|[<-|[]]]%in_app_iff [Hr'|[<-|[]]]%in_app_iff; simpl; auto.
    + intros Hcb Hnm. exfalso. eapply Hnew; eauto.
      rewrite Hty, <- Hcb, <- H3; auto.
    + intros Hcb Hnm. exfalso. eapply Hnew; eauto.
  Qed.

Lemma wf_set_stopDragListener i id :
  wf W -> id < next_id W ->
  (forall r, In r (registry W) -> reg_id r = id -> reg_type r = pointermove) ->
  wf (set_stopDragListener i (Some (removeListener id)) W).
Proof.
  intros [H1 H2 H3 H4 H5 H6] Hlt Hmv. split; simpl; auto.
  - intros r Hr. destruct (H4 r Hr) as (fr & Hfr & Hw).
    eapply alter_lookup_fwd in Hfr as (y & Hy & [->|[_ ->]]); eauto.
  - intros j fr id' Hfr Hs.
    apply alter_lookup_inv in Hfr as (x & Hx & [->|[_ ->]]); eauto.
    simpl in Hs. injection Hs as <-. auto.
Qed.

Lemma wf_push_frame fr :
  wf W -> stopDragListener fr = None ->
  wf (set_frames (fun fs => fs ++ [fr]) W).
Proof.
  intros [H1 H2 H3 H4 H5 H6] Hnone. split; simpl; auto.
  - intros r Hr. destruct (H4 r Hr) as (fr' & Hfr & Hw).
    exists fr'. split; [|done]. by apply lookup_app_l_Some.
  - intros j fr' id [[_ Hj]|[_ <-]]%lookup_snoc_Some Hs; eauto. congruence.
Qed.

Lemma wf_apply_iOSWorkaround env : wf W -> wf (apply_iOSWorkaround env W).
Proof. intros []. by split. Qed.

End Primitives.

(** ** Every step keeps the world well formed *)

Lemma wf_startDragListener W i e : wf W -> wf (startDragListener i e W).
Proof.
  intros H. unfold startDragListener. destruct (frames W !! i) as [fr|] eqn:Hfr; [|done].
  pose proof (wf_useEventListener W (window fr) pointermove
                (CbPointerMove i (ev_x e) (ev_y e)) false false fr H eq_refl Hfr eq_refl) as Hu.
  simpl in Hu. apply wf_set_stopDragListener; simpl.
  - apply Hu. congruence.
  - lia.
  - intros r [Hr|[<-|[]]]%in_app_iff Hid; simpl; auto.
    apply (wf_fresh W H) in Hr. lia.
Qed.

Lemma wf_onPointerMove W i x y e : wf W -> wf (onPointerMove i x y e W).
Proof.
  intros H. unfold onPointerMove. case_match; [|done].
  case_match; auto using wf_set_shouldListen, wf_call_opt.
Qed.

Lemma wf_listener W i env e : wf W -> wf (listener i env e W).
Proof.
  intros H. unfold listener, listener_test.
  repeat case_match; auto using wf_set_shouldListen, wf_call_opt, wf_call_handler.
Qed.

Lemma wf_onPointerDown W i env e : wf W -> wf (onPointerDown i env e W).
Proof.
  intros H. unfold onPointerDown. destruct (frames W !! i); [|done].
  repeat case_match; auto using wf_set_shouldListen, wf_startDragListener.
Qed.

Lemma wf_onBlurTimeout W i env e : wf W -> wf (onBlurTimeout i env e W).
Proof.
  intros H. unfold onBlurTimeout.
  repeat case_match; auto using wf_call_handler.
Qed.

Lemma wf_invoke W cb env e : wf W -> wf (invoke cb env e W).
Proof.
  destruct cb; simpl;
    auto using wf_listener, wf_onPointerDown, wf_onPointerMove, wf_onBlur.
Qed.

Lemma wf_run_listener env e W r : wf W -> wf (run_listener env e W r).
Proof. unfold run_listener. case_match; auto using wf_invoke. Qed.

Lemma wf_fold_listeners env e l W :
  wf W -> wf (fold_left (run_listener env e) l W).
Proof. revert W. induction l; simpl; auto using wf_run_listener. Qed.

Lemma wf_dispatchEvent w env e W : wf W -> wf (dispatchEvent w env e W).
Proof. apply wf_fold_listeners. Qed.

Lemma wf_runTimer env W : wf W -> wf (runTimer env W).
Proof.
  intros H. unfold runTimer. destruct (timers W) as [|[i e] rest]; [done|].
  apply wf_onBlurTimeout. destruct H. by split.
Qed.

Lemma wf_call_stop sh W : wf W -> wf (call_stop sh W).
Proof.
  destruct sh as [|cleanup]; simpl; [done|].
  revert W. induction cleanup; simpl; auto using wf_call.
Qed.

Lemma wf_init : wf init.
Proof. split; simpl; try done. constructor. Qed.

(** *** [onClickOutside] *)

Lemma onClickOutside_world P env tgt h options W :
  snd (onClickOutside P env tgt h options W) =
  match resolved_window P options with
  | None => W
  | Some w => installed P env tgt h w options W
  end.
Proof.
  unfold onClickOutside, resolved_window, installed.
  destruct options as [[w|] oi od oc [[]|]], (defaultWindow P); reflexivity.
Qed.

Lemma wf_installed P env tgt h w options W :
  wf W -> wf (installed P env tgt h w options W).
Proof.
  intros H. unfold installed.
  set (W0 := if isIOS P && negb (_iOSWorkaround W) then apply_iOSWorkaround env W else W).
  assert (H0 : wf W0) by (subst W0; case_match; auto using wf_apply_iOSWorkaround).
  clearbody W0. clear H W.
  set (i := length (frames W0)).
  set (fr := new_frame tgt h w options).
  set (W1 := set_frames (fun fs => fs ++ [fr]) W0).
  assert (H1 : wf W1) by (by apply wf_push_frame).
  assert (Hi : frames W1 !! i = Some fr).
  { simpl. apply lookup_snoc_Some. by right. }
  assert (Hlt : forall r, In r (registry W1) -> cb_frame (reg_cb r) < i).
  { intros r Hr. apply (wf_cb_frame_lt W0 r H0 Hr). }
  set (W2 := snd (useEventListener w click (CbListener i) true _ W1)).
  assert (H2 : wf W2).
  { eapply wf_useEventListener; eauto.
    intros _ r Hr Hcb. apply Hlt in Hr. rewrite Hcb in Hr. simpl in Hr. lia. }
  set (W3 := snd (useEventListener w pointerdown (CbPointerDown i) true false W2)).
  assert (H3 : wf W3).
  { eapply wf_useEventListener; eauto.
    intros _ r [Hr|[<-|[]]]%in_app_iff Hcb; [|discriminate].
    apply Hlt in Hr. rewrite Hcb in Hr. simpl in Hr. lia. }
  case_match; [|done].
  eapply wf_useEventListener; eauto.
  intros _ r [[Hr|[<-|[]]]%in_app_iff|[<-|[]]]%in_app_iff Hcb; try discriminate.
  apply Hlt in Hr. rewrite Hcb in Hr. simpl in Hr. lia.
Qed.

Lemma wf_onClickOutside P env tgt h options W :
  wf W -> wf (snd (onClickOutside P env tgt h options W)).
Proof.
  intros H. rewrite onClickOutside_world. case_match; auto using wf_installed.
Qed.

Lemma wf_step P s st : wf (world s) -> wf (world (step P s st)).
Proof.
  intros H. destruct st as [env tgt h o|k|w env e|env]; simpl.
  - pose proof (wf_onClickOutside P env tgt h o (world s) H) as Hw.
    destruct (onClickOutside P env tgt h o (world s)). exact Hw.
  - case_match; simpl; auto using wf_call_stop.
  - by apply wf_dispatchEvent.
  - by apply wf_runTimer.
Qed.

Lemma wf_run P tr s : wf (world s) -> wf (world (run P tr s)).
Proof. revert s. induction tr; simpl; auto using wf_step. Qed.

Lemma wf_reachable P tr : wf (world (run P tr start)).
Proof. apply wf_run, wf_init. Qed.

(** ** What the primitives leave alone *)

Lemma frames_call fn W : frames (call fn W) = frames W.
Proof. by destruct fn. Qed.

Lemma frames_call_opt fn W : frames (call_opt fn W) = frames W.
Proof. destruct fn; simpl; auto using frames_call. Qed.

Lemma calls_call_opt fn W : calls (call_opt fn W) = calls W.
Proof. by destruct fn as [[]|]. Qed.

Lemma frames_call_handler i e W : frames (call_handler i e W) = frames W.
Proof. unfold call_handler. by case_match. Qed.

Lemma registry_call_handler i e W : registry (call_handler i e W) = registry W.
Proof. unfold call_handler. by case_match. Qed.

Lemma calls_of_call_handler i j e W :
  j < length (frames W) ->
  calls_of i (call_handler j e W) = calls_of i W ++ (if j =? i then [e] else []).
Proof.
  intros [fr Hfr]%lookup_lt_is_Some. unfold call_handler, calls_of. rewrite Hfr. simpl.
  rewrite List.filter_app, map_app. simpl. by destruct (j =? i).
Qed.

Lemma calls_of_call_handler_ne i j e W :
  i <> j -> calls_of i (call_handler j e W) = calls_of i W.
Proof.
  intros Hne. unfold call_handler. case_match; [|done].
  unfold calls_of. simpl. rewrite List.filter_app, map_app. simpl.
  destruct (Nat.eqb_spec j i); [congruence|]. simpl. by rewrite app_nil_r.
Qed.

Lemma frames_set_shouldListen_ne i j b W :
  i <> j -> frames (set_shouldListen j b W) !! i = frames W !! i.
Proof. intros Hne. simpl. by rewrite list_lookup_alter_ne. Qed.

Lemma get_set_shouldListen i b W :
  i < length (frames W) -> get_shouldListen i (set_shouldListen i b W) = b.
Proof.
  intros [fr Hfr]%lookup_lt_is_Some. unfold get_shouldListen. simpl.
  by rewrite list_lookup_alter_eq, Hfr.
Qed.

Lemma length_frames_set_shouldListen i b W :
  length (frames (set_shouldListen i b W)) = length (frames W).
Proof. simpl. apply length_alter. Qed.

Lemma In_registry_call_drag W i fr r :
  wf W -> frames W !! i = Some fr ->
  In r (registry W) -> reg_type r <> pointermove ->
  In r (registry (call_opt (stopDragListener fr) W)).
Proof.
  intros H Hfr Hr Hty. destruct (stopDragListener fr) as [[|id]|] eqn:Hs; simpl; auto.
  apply filter_In. split; [done|].
  destruct (Nat.eqb_spec (reg_id r) id) as [Heq|]; [|done].
  exfalso. apply Hty.
  destruct (wf_drag W H i fr id Hfr Hs) as [_ Hmv]. auto.
Qed.

(** ** The click listener *)

Lemma calls_of_call_opt i fn W : calls_of i (call_opt fn W) = calls_of i W.
Proof. unfold calls_of. by rewrite calls_call_opt. Qed.

Lemma calls_of_set_shouldListen i j b W :
  calls_of i (set_shouldListen j b W) = calls_of i W.
Proof. reflexivity. Qed.

Lemma get_shouldListen_call_opt i fn W :
  get_shouldListen i (call_opt fn W) = get_shouldListen i W.
Proof. unfold get_shouldListen. by rewrite frames_call_opt. Qed.

Lemma get_shouldListen_call_handler i j e W :
  get_shouldListen i (call_handler j e W) = get_shouldListen i W.
Proof. unfold get_shouldListen. by rewrite frames_call_handler. Qed.

Lemma listener_self W i env e fr :
  frames W !! i = Some fr ->
  calls_of i (listener i env e W) = calls_of i W ++ listener_calls env fr e /\
  get_shouldListen i (listener i env e W) = listener_shouldListen env fr e.
Proof.
  intros Hfr.
  unfold listener, listener_test, listener_calls, listener_shouldListen, inside, click_fires.
  rewrite Hfr.
  set (W1 := call_opt (stopDragListener fr) W).
  assert (Hfr1 : frames W1 !! i = Some fr) by (subst W1; by rewrite frames_call_opt).
  assert (Hc1 : calls_of i W1 = calls_of i W) by apply calls_of_call_opt.
  assert (Hg1 : get_shouldListen i W1 = shouldListen fr).
  { unfold get_shouldListen. by rewrite Hfr1. }
  assert (Hlt : i < length (frames W1)) by (eapply lookup_lt_Some; eauto).
  clearbody W1.
  destruct (unrefElement env (target fr)) as [el|].
  2:{ rewrite app_nil_r. auto. }
  destruct (is_target e el || includes (composedPath e) el).
  { rewrite app_nil_r. auto. }
  destruct (detail e =? 0)%Z.
  - destruct (shouldIgnore env (ignore fr) e) as [ign|].
    2:{ rewrite app_nil_r. auto. }
    rewrite (get_set_shouldListen i _ W1 Hlt).
    destruct ign; simpl.
    + rewrite app_nil_r. split; [done|].
      apply get_set_shouldListen. by rewrite length_frames_set_shouldListen.
    + rewrite calls_of_call_handler by (by rewrite length_frames_set_shouldListen).
      rewrite Nat.eqb_refl, calls_of_set_shouldListen, Hc1.
      rewrite get_shouldListen_call_handler.
      by rewrite (get_set_shouldListen i true W1 Hlt).
  - rewrite Hg1. destruct (shouldListen fr) eqn:Hsl; simpl.
    + rewrite (calls_of_call_handler i i e W1 Hlt), Nat.eqb_refl, Hc1.
      by rewrite get_shouldListen_call_handler, Hg1.
    + rewrite (get_set_shouldListen i true W1 Hlt), app_nil_r. auto.
Qed.

Lemma listener_other W i j env e :
  i <> j ->
  frames (listener j env e W) !! i = frames W !! i /\
  calls_of i (listener j env e W) = calls_of i W.
Proof.
  intros Hne. unfold listener, listener_test.
  repeat case_match;
    rewrite ?frames_call_handler, ?calls_of_call_handler_ne by done;
    rewrite ?frames_set_shouldListen_ne by done;
    rewrite ?calls_of_set_shouldListen;
    rewrite ?frames_set_shouldListen_ne by done;
    rewrite ?frames_call_opt, ?calls_of_call_opt; auto.
Qed.

Lemma listener_keeps W j env e r :
  wf W -> In r (registry W) -> reg_type r <> pointermove ->
  In r (registry (listener j env e W)).
Proof.
  intros H Hr Hty. unfold listener. destruct (frames W !! j) as [fr|] eqn:Hfr; [|done].
  pose proof (In_registry_call_drag W j fr r H Hfr Hr Hty) as Hin.
  unfold listener_test.
  repeat case_match; rewrite ?registry_call_handler; simpl; auto.
Qed.

(** ** Dispatching to one detector among others *)

Lemma In_dispatch_order w ty W r :
  In r (dispatch_order w ty W) <->
  In r (registry W) /\ reg_window r = w /\ reg_type r = ty.
Proof.
  unfold dispatch_order, listens. rewrite in_app_iff, !filter_In.
  rewrite andb_true_iff, Nat.eqb_eq, bool_decide_eq_true.
  destruct (reg_capture r); simpl; intuition congruence.
Qed.

Lemma NoDup_dispatch_order w ty W :
  wf W -> List.NoDup (dispatch_order w ty W).
Proof.
  intros H. unfold dispatch_order.
  pose proof (wf_nodup W H) as Hnd. apply List.NoDup_map_inv in Hnd.
  apply List.NoDup_app; try by repeat apply List.NoDup_filter.
  intros r [_ Hc]%filter_In [_ Hn]%filter_In.
  rewrite Hc in Hn. discriminate.
Qed.

Lemma registered_In r W : In r (registry W) -> registered (reg_id r) W = true.
Proof.
  intros Hr. unfold registered. apply existsb_exists. exists r.
  split; [done|]. apply Nat.eqb_refl.
Qed.

Lemma cb_determined c1 c2 :
  cb_type c1 = cb_type c2 -> cb_frame c1 = cb_frame c2 ->
  cb_type c1 <> pointermove -> c1 = c2.
Proof. destruct c1, c2; simpl; intros; try done; congruence. Qed.

Lemma onPointerDown_other W i j env e :
  i <> j ->
  frames (onPointerDown j env e W) !! i = frames W !! i /\
  calls_of i (onPointerDown j env e W) = calls_of i W.
Proof.
  intros Hne. unfold onPointerDown, startDragListener.
  repeat (case_match; simpl); rewrite ?list_lookup_alter_ne by done; auto.
Qed.

Lemma onPointerMove_other W i j x y e :
  i <> j ->
  frames (onPointerMove j x y e W) !! i = frames W !! i /\
  calls_of i (onPointerMove j x y e W) = calls_of i W.
Proof.
  intros Hne. unfold onPointerMove.
  repeat (case_match; simpl);
    rewrite ?frames_call_opt, ?calls_of_call_opt; simpl;
    rewrite ?list_lookup_alter_ne by done; auto.
Qed.

Lemma invoke_other W i cb env e :
  i <> cb_frame cb ->
  frames (invoke cb env e W) !! i = frames W !! i /\
  calls_of i (invoke cb env e W) = calls_of i W.
Proof.
  destruct cb; simpl;
    auto using listener_other, onPointerDown_other, onPointerMove_other.
Qed.

Lemma invoke_keeps W cb env e r :
  wf W -> In r (registry W) -> reg_type r <> pointermove ->
  In r (registry (invoke cb env e W)).
Proof.
  intros H Hr Hty. destruct cb as [j|j|j x y|j]; simpl.
  - by apply listener_keeps.
  - unfold onPointerDown, startDragListener.
    repeat (case_match; simpl); auto; apply in_app_iff; auto.
  - unfold onPointerMove. case_match; [|done].
    destruct (frames (set_shouldListen j false W) !! j) as [fr|] eqn:Hfr; [|done].
    apply (In_registry_call_drag _ j fr r); auto using wf_set_shouldListen.
  - done.
Qed.

Section DispatchSelf.
Context (i : nat) (env : Env) (e : Event).

Lemma fold_others l W :
  wf W -> other_frames i l ->
  frames (fold_left (run_listener env e) l W) !! i = frames W !! i /\
  calls_of i (fold_left (run_listener env e) l W) = calls_of i W /\
  (forall r, In r (registry W) -> reg_type r <> pointermove ->
             In r (registry (fold_left (run_listener env e) l W))).
Proof.
  revert W. induction l as [|a l IH]; intros W H Hl; simpl; [auto|].
  pose proof (Hl a (or_introl eq_refl)) as Hne.
  assert (Hl' : other_frames i l) by (intros r Hr; apply Hl; by right).
  destruct (IH (run_listener env e W a) (wf_run_listener env e W a H) Hl')
    as (Hf & Hc & Hk).
  rewrite Hf, Hc. unfold run_listener in *.
  destruct (registered (reg_id a) W); [|auto].
  destruct (invoke_other W i (reg_cb a) env e Hne) as [-> ->].
  repeat split; auto.
  intros r Hr Hty. apply Hk; auto using invoke_keeps.
Qed.

(** The listener [r] of frame [i] runs exactly once in a dispatch of its
    event, in a world that the listeners before it left as it was for
    frame [i], and the listeners after it leave what it did. *)
Lemma dispatch_self W r :
  wf W -> In r (registry W) -> cb_frame (reg_cb r) = i ->
  reg_type r <> pointermove -> ev_type e = reg_type r ->
  exists W1,
    wf W1 /\ frames W1 !! i = frames W !! i /\ calls_of i W1 = calls_of i W /\
    frames (dispatchEvent (reg_window r) env e W) !! i
      = frames (invoke (reg_cb r) env e W1) !! i /\
    calls_of i (dispatchEvent (reg_window r) env e W)
      = calls_of i (invoke (reg_cb r) env e W1).
Proof.
  intros H Hr Hi Hnm Hty. unfold dispatchEvent. rewrite Hty.
  assert (Hin : In r (dispatch_order (reg_window r) (reg_type r) W))
    by (by apply In_dispatch_order).
  pose proof (NoDup_dispatch_order (reg_window r) (reg_type r) W H) as Hnd.
  apply in_split in Hin as (l1 & l2 & Hord). rewrite Hord in Hnd |- *.
  assert (Hothers : other_frames i (l1 ++ l2)).
  { intros r' Hr' Heq.
    assert (Hr'' : In r' (dispatch_order (reg_window r) (reg_type r) W)).
    { rewrite Hord. apply in_app_iff. apply in_app_iff in Hr' as [|]; simpl; auto. }
    apply In_dispatch_order in Hr'' as (Hreg & _ & Hty').
    apply (NoDup_remove_2 _ _ _ Hnd).
    replace r with r'; [done|].
    apply (wf_single W H r' r); auto; [|congruence].
    apply cb_determined.
    - rewrite <- (wf_typed W H r' Hreg), <- (wf_typed W H r Hr). done.
    - congruence.
    - rewrite <- (wf_typed W H r' Hreg). congruence. }
  assert (H1 : other_frames i l1) by (intros ? ?; apply Hothers, in_app_iff; auto).
  assert (H2 : other_frames i l2) by (intros ? ?; apply Hothers, in_app_iff; auto).
  rewrite fold_left_app. simpl.
  set (W1 := fold_left (run_listener env e) l1 W).
  destruct (fold_others l1 W H H1) as (Hf1 & Hc1 & Hk1). fold W1 in Hf1, Hc1, Hk1.
  assert (Hwf1 : wf W1) by (by apply wf_fold_listeners).
  assert (Hr1 : In r (registry W1)) by (by apply Hk1).
  assert (Hrun : run_listener env e W1 r = invoke (reg_cb r) env e W1).
  { unfold run_listener. by rewrite (registered_In r W1 Hr1). }
  rewrite Hrun.
  destruct (fold_others l2 (invoke (reg_cb r) env e W1)
              (wf_invoke W1 (reg_cb r) env e Hwf1) H2) as (Hf2 & Hc2 & _).
  exists W1. by rewrite Hf2, Hc2.
Qed.

End DispatchSelf.

Lemma dispatch_click_self i env e W fr r :
  wf W -> frames W !! i = Some fr ->
  In r (registry W) -> reg_cb r = CbListener i ->
  ev_type e = click ->
  calls_of i (dispatchEvent (window fr) env e W)
    = calls_of i W ++ listener_calls env fr e /\
  get_shouldListen i (dispatchEvent (window fr) env e W)
    = listener_shouldListen env fr e.
Proof.
  intros H Hfr Hr Hcb Hclick.
  assert (Hty : reg_type r = click) by (rewrite (wf_typed W H r Hr), Hcb; done).
  assert (Hw : reg_window r = window fr).
  { destruct (wf_owner W H r Hr) as (fr' & Hfr' & ->).
    rewrite Hcb in Hfr'. simpl in Hfr'. congruence. }
  destruct (dispatch_self i env e W r H Hr) as (W1 & _ & Hf1 & Hc1 & Hf & Hc);
    rewrite ?Hcb, ?Hty; try done.
  rewrite Hw, Hcb in Hf, Hc. simpl in Hf, Hc. rewrite Hfr in Hf1.
  destruct (listener_self W1 i env e fr Hf1) as (Hc' & Hg').
  rewrite Hc, Hc', Hc1. split; [done|].
  unfold get_shouldListen in *. by rewrite Hf.
Qed.

(** The value the pointerdown arrow function gives [shouldListen]. *)
Lemma onPointerDown_self W i env e fr :
  frames W !! i = Some fr ->
  get_shouldListen i (onPointerDown i env e W)
    = default (shouldListen fr) (pointerdown_shouldListen env fr e) /\
  calls_of i (onPointerDown i env e W) = calls_of i W.
Proof.
  intros Hfr. unfold onPointerDown, pointerdown_shouldListen, startDragListener.
  rewrite Hfr.
  destruct (shouldIgnore env (ignore fr) e) as [ign|]; simpl.
  2:{ unfold get_shouldListen. by rewrite Hfr. }
  set (sl := negb ign && _).
  assert (Hlt : i < length (frames W)) by (eapply lookup_lt_Some; eauto).
  pose proof (get_set_shouldListen i sl W Hlt) as Hg.
  case_match; [|done].
  unfold get_shouldListen in *. simpl in *.
  rewrite list_lookup_alter_eq, Hfr in Hg |- *. simpl in *.
  by rewrite list_lookup_alter_eq, list_lookup_alter_eq, Hfr.
Qed.

Lemma dispatch_pointerdown_self i env e W fr r :
  wf W -> frames W !! i = Some fr ->
  In r (registry W) -> reg_cb r = CbPointerDown i ->
  ev_type e = pointerdown ->
  get_shouldListen i (dispatchEvent (window fr) env e W)
    = default (shouldListen fr) (pointerdown_shouldListen env fr e) /\
  calls_of i (dispatchEvent (window fr) env e W) = calls_of i W.
Proof.
  intros H Hfr Hr Hcb Hdown.
  assert (Hty : reg_type r = pointerdown) by (rewrite (wf_typed W H r Hr), Hcb; done).
  assert (Hw : reg_window r = window fr).
  { destruct (wf_owner W H r Hr) as (fr' & Hfr' & ->).
    rewrite Hcb in Hfr'. simpl in Hfr'. congruence. }
  destruct (dispatch_self i env e W r H Hr) as (W1 & _ & Hf1 & Hc1 & Hf & Hc);
    rewrite ?Hcb, ?Hty; try done.
  rewrite Hw, Hcb in Hf, Hc. simpl in Hf, Hc. rewrite Hfr in Hf1.
  destruct (onPointerDown_self W1 i env e fr Hf1) as (Hg' & Hc').
  rewrite Hc, Hc', Hc1. split; [|done].
  unfold get_shouldListen in *. by rewrite Hf.
Qed.

(** ** The blur path *)

Lemma onBlurTimeout_calls i env e W :
  calls (onBlurTimeout i env e W)
  = calls W ++ match frames W !! i with
               | None => []
               | Some fr => if blur_check env (target fr)
                            then [mkCall i (handler fr) e] else []
               end.
Proof.
  unfold onBlurTimeout, blur_check, call_handler.
  destruct (frames W !! i) as [fr|]; [|by rewrite app_nil_r].
  destruct (activeElement env) as [a|]; simpl; [|by rewrite app_nil_r].
  destruct (tagName env a =? "IFRAME")%string; simpl; [|by rewrite app_nil_r].
  destruct (unrefElement env (target fr)) as [el|]; simpl; [|done].
  destruct (contains env el a); simpl; [by rewrite app_nil_r|done].
Qed.

Lemma onBlurTimeout_rest i env e W :
  frames (onBlurTimeout i env e W) = frames W /\
  registry (onBlurTimeout i env e W) = registry W /\
  timers (onBlurTimeout i env e W) = timers W.
Proof.
  unfold onBlurTimeout, call_handler. by repeat case_match.
Qed.

Lemma fold_blur env e l W :
  (forall r, In r l -> In r (registry W) /\ exists j, reg_cb r = CbBlur j) ->
  fold_left (run_listener env e) l W
  = add_timers (map (fun r => (cb_frame (reg_cb r), e)) l) W.
Proof.
  revert W. induction l as [|a l IH]; intros W Hl; simpl.
  - unfold add_timers. rewrite app_nil_r. by destruct W.
  - destruct (Hl a (or_introl eq_refl)) as (Ha & j & Hcb).
    unfold run_listener at 2. rewrite (registered_In a W Ha), Hcb. simpl.
    rewrite IH.
    + unfold add_timers, onBlur. simpl. by rewrite <- app_assoc.
    + intros r Hr. apply Hl. by right.
Qed.

Lemma dispatch_blur w env e W :
  wf W -> ev_type e = blur ->
  dispatchEvent w env e W
  = add_timers (map (fun r => (cb_frame (reg_cb r), e)) (dispatch_order w blur W)) W.
Proof.
  intros H Hty. unfold dispatchEvent. rewrite Hty. apply fold_blur.
  intros r (Hr & _ & Ht)%In_dispatch_order. split; [done|].
  pose proof (wf_typed W H r Hr) as Hc. rewrite Ht in Hc.
  destruct (reg_cb r); try discriminate. eauto.
Qed.

Lemma dispatch_blur_once i w env e W r :
  wf W -> ev_type e = blur ->
  In r (registry W) -> reg_cb r = CbBlur i -> reg_window r = w ->
  timers_of i (dispatchEvent w env e W) = timers_of i W ++ [e].
Proof.
  intros H Hty Hr Hcb Hw. rewrite dispatch_blur by done.
  unfold timers_of, add_timers. simpl. rewrite List.filter_app, map_app. f_equal.
  assert (Hrt : reg_type r = blur) by (rewrite (wf_typed W H r Hr), Hcb; done).
  assert (Hin : In r (dispatch_order w blur W)) by (by apply In_dispatch_order).
  pose proof (NoDup_dispatch_order w blur W H) as Hnd.
  apply in_split in Hin as (l1 & l2 & Hord). rewrite Hord in Hnd |- *.
  assert (Hoth : forall l, (forall x, In x l -> In x (l1 ++ l2)) ->
            List.filter (fun t : nat * Event => fst t =? i)
              (map (fun r => (cb_frame (reg_cb r), e)) l) = []).
  { induction l as [|a l IHl]; intros Hsub; simpl; [done|].
    destruct (Nat.eqb_spec (cb_frame (reg_cb a)) i) as [Heq|Hne].
    - exfalso. apply (NoDup_remove_2 _ _ _ Hnd).
      replace r with a; [apply Hsub; by left|].
      assert (Ha : In a (dispatch_order w blur W)).
      { rewrite Hord. specialize (Hsub a (or_introl eq_refl)).
        apply in_app_iff. apply in_app_iff in Hsub as [|]; simpl; auto. }
      apply In_dispatch_order in Ha as (Har & _ & Hat).
      apply (wf_single W H a r); auto; [|congruence].
      pose proof (wf_typed W H a Har) as Hc. rewrite Hat in Hc.
      destruct (reg_cb a); try discriminate. simpl in Heq. congruence.
    - apply IHl. intros x Hx. apply Hsub. by right. }
  rewrite List.map_app, List.filter_app. simpl. rewrite Hcb. simpl.
  rewrite Nat.eqb_refl.
  rewrite !Hoth; [done| |]; intros x Hx; apply in_app_iff; auto.
Qed.

Lemma calls_of_app i W cs :
  calls_of i (mkWorld (_iOSWorkaround W) (frames W) (registry W) (next_id W)
                (noopClick W) (timers W) (calls W ++ cs))
  = calls_of i W ++ map c_event (List.filter (fun c => c_frame c =? i) cs).
Proof. unfold calls_of. simpl. by rewrite List.filter_app, List.map_app. Qed.

Lemma runTimer_calls_of i env e rest W fr :
  timers W = (i, e) :: rest -> frames W !! i = Some fr ->
  calls_of i (runTimer env W)
  = calls_of i W ++ (if blur_check env (target fr) then [e] else []).
Proof.
  intros Ht Hfr. unfold runTimer. rewrite Ht.
  unfold calls_of at 1. rewrite onBlurTimeout_calls. simpl. rewrite Hfr.
  rewrite List.filter_app, List.map_app. fold (calls_of i W). f_equal.
  destruct (blur_check env (target fr)); simpl; [|done].
  by rewrite Nat.eqb_refl.
Qed.

(** ** Properties that no callback can disturb *)

Section Stable.
Context (I : World -> Prop) (HI : prim_stable I).

Lemma stable_call_opt fn W : I W -> I (call_opt fn W).
Proof. pose proof HI as []. destruct fn; simpl; auto. Qed.

Lemma stable_startDragListener i e W : I W -> I (startDragListener i e W).
Proof.
  intros H. unfold startDragListener. case_match; [|done].
  apply (ps_stopDrag I HI).
  apply (ps_track I HI _ i (ev_x e) (ev_y e) W H).
Qed.

Lemma stable_invoke cb env e W : I W -> I (invoke cb env e W).
Proof.
  intros H. pose proof HI as []. destruct cb as [i|i|i x y|i]; simpl.
  - unfold listener, listener_test. repeat case_match; auto using stable_call_opt.
  - unfold onPointerDown. repeat case_match; auto using stable_startDragListener.
  - unfold onPointerMove. repeat case_match; auto using stable_call_opt.
  - auto.
Qed.

Lemma stable_dispatchEvent w env e W : I W -> I (dispatchEvent w env e W).
Proof.
  unfold dispatchEvent. generalize (dispatch_order w (ev_type e) W) as l.
  intros l. revert W. induction l as [|a l IH]; intros W H; simpl; [done|].
  apply IH. unfold run_listener. case_match; auto using stable_invoke.
Qed.

Lemma stable_runTimer env W : I W -> I (runTimer env W).
Proof.
  intros H. pose proof HI as []. unfold runTimer.
  destruct (timers W) as [|[i e] rest]; [done|].
  unfold onBlurTimeout. simpl. repeat case_match; auto.
Qed.

Lemma stable_call_stop sh W : I W -> I (call_stop sh W).
Proof.
  pose proof HI as []. destruct sh as [|cleanup]; simpl; [done|].
  revert W. induction cleanup; simpl; auto.
Qed.

(** Along a trace whose calls of [onClickOutside] keep [I]. *)
Lemma stable_run P (ok : Step -> Prop) tr s :
  (forall env tgt h o W, ok (Install env tgt h o) -> I W ->
      I (snd (onClickOutside P env tgt h o W))) ->
  Forall ok tr -> I (world s) -> I (world (run P tr s)).
Proof.
  intros Hinst. revert s. induction tr as [|st tr IH]; intros s Hok Hs; simpl; [done|].
  inversion_clear Hok as [|? ? Hst Htr].
  apply IH; [done|].
  destruct st as [env tgt h o|k|w env e|env]; simpl.
  - pose proof (Hinst env tgt h o (world s) Hst Hs) as Hw.
    by destruct (onClickOutside P env tgt h o (world s)).
  - case_match; simpl; auto using stable_call_stop.
  - by apply stable_dispatchEvent.
  - by apply stable_runTimer.
Qed.

End Stable.

(** No callback touches the workaround flag, the no-op click listeners or
    the number of frames. *)
Lemma platform_state_stable (Q : bool -> list Node -> nat -> Prop) :
  prim_stable (fun W => Q (_iOSWorkaround W) (noopClick W) (length (frames W))).
Proof.
  split; simpl; intros; rewrite ?length_alter; auto.
  - by destruct fn.
  - unfold call_handler. by case_match.
Qed.

Lemma unused_stable h : prim_stable (unused h).
Proof.
  split; unfold unused; simpl.
  - intros i b W [Hf Hc]. split; [|done]. intros j fr Hfr.
    apply alter_lookup_inv in Hfr as (x & Hx & [->|[_ ->]]); simpl; eauto.
  - intros i f W [Hf Hc]. split; [|done]. intros j fr Hfr.
    apply alter_lookup_inv in Hfr as (x & Hx & [->|[_ ->]]); simpl; eauto.
  - intros fn W H. by destruct fn.
  - done.
  - intros i e W [Hf Hc]. unfold call_handler.
    destruct (frames W !! i) as [fr|] eqn:Hfr; [|done]. simpl. split; [done|].
    intros c [Hin|[<-|[]]]%in_app_iff; simpl; eauto.
  - done.
  - done.
Qed.

(** ** Calls of [onClickOutside] *)

Lemma installed_fields P env tgt h w o W :
  frames (installed P env tgt h w o W) = frames W ++ [new_frame tgt h w o] /\
  registry (installed P env tgt h w o W)
    = registry W ++ new_listeners (length (frames W)) (next_id W) w o /\
  calls (installed P env tgt h w o W) = calls W /\
  timers (installed P env tgt h w o W) = timers W.
Proof.
  unfold installed, new_listeners.
  destruct (isIOS P && negb (_iOSWorkaround W)), (default false (o_detectIframe o));
    simpl; rewrite <- ?app_assoc; auto.
Qed.

Lemma onClickOutside_handle P env tgt h o W w :
  resolved_window P o = Some w ->
  fst (onClickOutside P env tgt h o W) = stop (new_cleanup (next_id W) o).
Proof.
  unfold onClickOutside, resolved_window, new_cleanup. intros Hw. rewrite Hw.
  destruct (isIOS P && negb (_iOSWorkaround W)), o as [ow oi od oc [[]|]]; reflexivity.
Qed.

Lemma unused_installed P env tgt h' w o h W :
  h' <> h -> unused h W -> unused h (installed P env tgt h' w o W).
Proof.
  intros Hne [Hf Hc].
  destruct (installed_fields P env tgt h' w o W) as (Hfr & _ & Hcalls & _).
  split; rewrite ?Hfr, ?Hcalls; [|done].
  intros i fr [[_ Hi]|[_ <-]]%lookup_snoc_Some; eauto.
Qed.

Lemma unused_run P h tr s :
  Forall (installs_other h) tr -> unused h (world s) ->
  unused h (world (run P tr s)).
Proof.
  apply (stable_run (unused h) (unused_stable h) P (installs_other h)).
  intros env tgt h' o W Hne HW. rewrite onClickOutside_world.
  case_match; auto using unused_installed.
Qed.

Lemma onClickOutside_platform_state P env tgt h o W :
  match resolved_window P o with
  | None => snd (onClickOutside P env tgt h o W) = W
  | Some w =>
      _iOSWorkaround (snd (onClickOutside P env tgt h o W))
        = _iOSWorkaround W || isIOS P /\
      noopClick (snd (onClickOutside P env tgt h o W))
        = noopClick W ++ (if isIOS P && negb (_iOSWorkaround W)
                          then bodyChildren env ++ [documentElement env] else []) /\
      length (frames (snd (onClickOutside P env tgt h o W))) = S (length (frames W))
  end.
Proof.
  rewrite onClickOutside_world. destruct (resolved_window P o) as [w|]; [|done].
  unfold installed.
  destruct (isIOS P), (_iOSWorkaround W) eqn:Hflag, (default false (o_detectIframe o));
    simpl; rewrite ?length_app, ?app_nil_r, ?Hflag; simpl; repeat split; auto; lia.
Qed.

Lemma workaround_tracks_frames_run P tr :
  isIOS P = true -> workaround_tracks_frames (world (run P tr start)).
Proof.
  intros HiOS.
  apply (stable_run _ (platform_state_stable (fun f n k =>
           (f = false /\ n = [] /\ k = 0) \/ (f = true /\ 0 < k))) P (fun _ => True)).
  - intros env tgt h o W _ HW.
    pose proof (onClickOutside_platform_state P env tgt h o W) as Hs.
    destruct (resolved_window P o); [|by rewrite Hs].
    destruct Hs as (-> & _ & ->). rewrite HiOS, orb_true_r. right. split; [done|lia].
  - by apply Forall_forall.
  - left. by simpl.
Qed.

Lemma workaround_is_final P l tr s :
  _iOSWorkaround (world s) = true /\ noopClick (world s) = l ->
  _iOSWorkaround (world (run P tr s)) = true /\ noopClick (world (run P tr s)) = l.
Proof.
  apply (stable_run _ (platform_state_stable (fun f n _ => f = true /\ n = l))
           P (fun _ => True)).
  - intros env tgt h o W _ [Hf Hn].
    pose proof (onClickOutside_platform_state P env tgt h o W) as Hs.
    destruct (resolved_window P o); [|by rewrite Hs].
    destruct Hs as (-> & -> & _). rewrite Hf. simpl.
    by rewrite andb_false_r, app_nil_r.
  - by apply Forall_forall.
Qed.

(** ** What the stop handle does remove *)

Lemma covered_stable i c : prim_stable (covered i c).
Proof.
  split; unfold covered; simpl.
  - intros j b W [Hlt Hc]. by rewrite length_alter.
  - intros j f W [Hlt Hc]. by rewrite length_alter.
  - intros fn W [Hlt Hc]. destruct fn as [|id]; simpl; [done|].
    split; [done|]. intros r Hr. apply Hc. eapply In_filter_sub; eauto.
  - intros w j x y W [Hlt Hc]. split; [done|].
    intros r [Hr|[<-|[]]]%in_app_iff; simpl; [by apply Hc|done].
  - intros j e W [Hlt Hc]. unfold call_handler. by case_match.
  - done.
  - done.
Qed.

Lemma covered_installed P env tgt h w o i c W :
  covered i c W -> covered i c (installed P env tgt h w o W).
Proof.
  intros [Hlt Hc].
  destruct (installed_fields P env tgt h w o W) as (Hfr & Hreg & _).
  split; rewrite ?Hfr, ?Hreg.
  - rewrite length_app. lia.
  - intros r [Hr|Hr]%in_app_iff; [by apply Hc|].
    intros Hi. exfalso. unfold new_listeners in Hr.
    destruct (default false (o_detectIframe o));
      simpl in Hr; destruct Hr as [<-|[<-|Hr]]; simpl in Hi; try lia;
      destruct Hr as [<-|[]]; simpl in Hi; lia.
Qed.

Lemma covered_run P i c tr s :
  covered i c (world s) -> covered i c (world (run P tr s)).
Proof.
  apply (stable_run (covered i c) (covered_stable i c) P (fun _ => True)).
  - intros env tgt h o W _ HW. rewrite onClickOutside_world.
    case_match; auto using covered_installed.
  - by apply Forall_forall.
Qed.

(** The handle a call returns covers the listeners the call registered. *)
Lemma covered_new P env tgt h w o W :
  wf W ->
  covered (length (frames W)) (new_cleanup (next_id W) o)
          (installed P env tgt h w o W).
Proof.
  intros H.
  destruct (installed_fields P env tgt h w o W) as (Hfr & Hreg & _).
  split; rewrite ?Hfr, ?Hreg.
  - rewrite length_app. simpl. lia.
  - intros r [Hr|Hr]%in_app_iff Hi Hty.
    + apply (wf_cb_frame_lt W r H) in Hr. lia.
    + unfold new_listeners, new_cleanup in *.
      destruct (default false (o_detectIframe o));
        simpl in Hr; destruct Hr as [<-|[<-|Hr]]; simpl; auto;
        destruct Hr as [<-|[]]; simpl; auto.
Qed.

Lemma call_stop_removes cleanup W :
  frames (call_stop (stop cleanup) W) = frames W /\
  forall r, In r (registry (call_stop (stop cleanup) W)) ->
            In r (registry W) /\ ~ In (removeListener (reg_id r)) cleanup.
Proof.
  simpl. revert W. induction cleanup as [|fn cleanup IH]; intros W; simpl; [auto|].
  destruct (IH (call fn W)) as [Hf Hr]. rewrite Hf, frames_call. split; [done|].
  intros r Hin. destruct (Hr r Hin) as [Hreg Hnot].
  destruct fn as [|id]; simpl in Hreg.
  - split; [done|]. intros [|]; [discriminate|done].
  - apply filter_In in Hreg as [Hreg Hid]. split; [done|].
    intros [Heq|]; [|done]. injection Heq as Heq.
    by rewrite Heq, Nat.eqb_refl in Hid.
Qed.

Lemma covered_stop i c W : covered i c W -> covered i [] (call_stop (stop c) W).
Proof.
  intros [Hlt Hc]. destruct (call_stop_removes c W) as [Hf Hr].
  split; [by rewrite Hf|].
  intros r Hin Hi Hty. destruct (Hr r Hin) as [Hreg Hnot].
  destruct Hnot. by apply Hc.
Qed.

Lemma run_app P tr1 tr2 s : run P (tr1 ++ tr2) s = run P tr2 (run P tr1 s).
Proof. apply fold_left_app. Qed.

Lemma handles_run P tr s k sh :
  handles s !! k = Some sh -> handles (run P tr s) !! k = Some sh.
Proof.
  revert s. induction tr as [|st tr IH]; intros s Hk; simpl; [done|].
  apply IH. destruct st as [env tgt h o|j|w env e|env]; simpl; try done.
  - destruct (onClickOutside P env tgt h o (world s)). simpl.
    by apply lookup_app_l_Some.
  - by case_match.
Qed.

(** A frame without click listener is not called by a click. *)
Lemma click_after_stop i w env e W :
  wf W -> covered i [] W -> ev_type e = click ->
  calls_of i (dispatchEvent w env e W) = calls_of i W.
Proof.
  intros H [_ Hc] Hty. unfold dispatchEvent.
  apply (fold_others i env e _ W H).
  intros r (Hr & _ & Ht)%In_dispatch_order Hi.
  apply (Hc r Hr); [done|]. rewrite Ht, Hty. done.
Qed.

(** Once the handle returned by a call of [onClickOutside] has been
    called, no click calls the handler of that detector again, whatever
    happened before and whatever happens after. *)
Lemma stop_silences_clicks P s env tgt h o w tr1 tr2 wc envc e :
  wf (world s) -> resolved_window P o = Some w -> ev_type e = click ->
  calls_of (length (frames (world s)))
    (dispatchEvent wc envc e
       (world (run P (Install env tgt h o :: tr1 ++ Stop (length (handles s)) :: tr2) s)))
  = calls_of (length (frames (world s)))
      (world (run P (Install env tgt h o :: tr1 ++ Stop (length (handles s)) :: tr2) s)).
Proof.
  intros H Hw Hty.
  set (i := length (frames (world s))). set (k := length (handles s)).
  change (run P (Install env tgt h o :: tr1 ++ Stop k :: tr2) s)
    with (run P (tr1 ++ Stop k :: tr2) (step P s (Install env tgt h o))).
  rewrite run_app.
  set (s1 := step P s (Install env tgt h o)).
  assert (Hs1 : world s1 = installed P env tgt h w o (world s) /\
                handles s1 !! k = Some (stop (new_cleanup (next_id (world s)) o))).
  { subst s1. simpl.
    pose proof (onClickOutside_world P env tgt h o (world s)) as Hworld.
    pose proof (onClickOutside_handle P env tgt h o (world s) w Hw) as Hhandle.
    rewrite Hw in Hworld.
    destruct (onClickOutside P env tgt h o (world s)) as [sh W1]. simpl in *.
    subst. split; [done|]. apply lookup_snoc_Some. right. done. }
  clearbody s1. destruct Hs1 as [Hworld Hhandle].
  assert (Hwf1 : wf (world s1)) by (rewrite Hworld; by apply wf_installed).
  assert (Hcov1 : covered i (new_cleanup (next_id (world s)) o) (world s1)).
  { rewrite Hworld. by apply covered_new. }
  set (s2 := run P tr1 s1).
  assert (Hwf2 : wf (world s2)) by (by apply wf_run).
  assert (Hcov2 : covered i (new_cleanup (next_id (world s)) o) (world s2))
    by (by apply covered_run).
  assert (Hh2 : handles s2 !! k = Some (stop (new_cleanup (next_id (world s)) o)))
    by (by apply handles_run).
  change (run P (Stop k :: tr2) s2) with (run P tr2 (step P s2 (Stop k))).
  clearbody s2.
  assert (Hs3 : wf (world (step P s2 (Stop k))) /\
                covered i [] (world (step P s2 (Stop k)))).
  { simpl. rewrite Hh2. cbn [world]. split; [by apply wf_call_stop|].
    by apply covered_stop. }
  destruct Hs3 as [Hwf3 Hcov3].
  apply click_after_stop; [by apply wf_run|by apply covered_run|done].
Qed.

(** ** Events that call no handler *)

(** Events other than clicks never call a handler from their listeners. *)
Lemma dispatch_other_calls w env e W :
  wf W -> ev_type e <> click -> calls (dispatchEvent w env e W) = calls W.
Proof.
  intros H Hty. unfold dispatchEvent.
  assert (Hl : forall r, In r (dispatch_order w (ev_type e) W) ->
                 forall i, reg_cb r <> CbListener i).
  { intros r (Hr & _ & Ht)%In_dispatch_order i Hcb.
    apply Hty. rewrite <- Ht, (wf_typed W H r Hr), Hcb. done. }
  remember (dispatch_order w (ev_type e) W) as l eqn:El. clear El H.
  revert W. induction l as [|a l IH]; intros W; simpl; [done|].
  rewrite IH by (intros r Hr; apply Hl; by right).
  unfold run_listener. case_match; [|done].
  pose proof (Hl a (or_introl eq_refl)) as Ha.
  destruct (reg_cb a) as [i|i|i x y|i]; simpl.
  - by destruct (Ha i).
  - unfold onPointerDown, startDragListener. by repeat (case_match; simpl).
  - unfold onPointerMove. repeat (case_match; simpl); try done;
      by rewrite calls_call_opt.
  - done.
Qed.

(** A click while the target resolves to nothing calls nothing. *)
Lemma click_without_target P tr i fr r env e :
  frames (world (run P tr start)) !! i = Some fr ->
  In r (registry (world (run P tr start))) -> reg_cb r = CbListener i ->
  ev_type e = click ->
  unrefElement env (target fr) = None ->
  calls_of i (dispatchEvent (window fr) env e (world (run P tr start)))
    = calls_of i (world (run P tr start)).
Proof.
  intros Hfr Hr Hcb Hty Hel.
  destruct (dispatch_click_self i env e _ fr r (wf_reachable P tr) Hfr Hr Hcb Hty)
    as [-> _].
  unfold listener_calls. by rewrite Hel, app_nil_r.
Qed.

(** * The claims *)

(** A press that starts inside the watched element and is released
    outside it: the click lands outside, no ignore entry matches, nothing
    was dragged and the click is a real one, and the handler is not
    called. *)
Lemma outside_click_after_inside_press :
  ~ outside_click_claim desktop
      [Install (page None) 0 7 no_options;
       Dispatch 0 (page None) pointerdown_in_child]
      0 (page None) (click_at 30 1).
Proof.
  intros H.
  specialize (H (mkFrame 0 7 0 [] (DragBool false) true false false None)
                (mkReg 0 0 click (CbListener 0) true true) 10).
  vm_compute in H.
  assert (Hne : (1 <> 0)%Z) by lia.
  specialize (H eq_refl (or_introl eq_refl) eq_refl eq_refl eq_refl eq_refl eq_refl
                eq_refl Hne).
  discriminate H.
Qed.

(** The same without any movement: the press happens before the watched
    element is mounted (say it opens a popup), the click after. *)
Lemma outside_click_after_press_before_mount :
  ~ outside_click_claim desktop
      [Install page_unmounted 0 7 no_options;
       Dispatch 0 page_unmounted (pointerdown_at 30 0 0)]
      0 (page None) (click_at 30 1).
Proof.
  intros H.
  specialize (H (mkFrame 0 7 0 [] (DragBool false) true false false None)
                (mkReg 0 0 click (CbListener 0) true true) 10).
  vm_compute in H.
  assert (Hne : (1 <> 0)%Z) by lia.
  specialize (H eq_refl (or_introl eq_refl) eq_refl eq_refl eq_refl eq_refl eq_refl
                eq_refl Hne).
  discriminate H.
Qed.

(** C1 (amended).  For a click dispatched to the window of an installed
    detector whose target resolves: when the click's target is the watched
    element or its composed path includes it, the handler is not called;
    otherwise the handler is called exactly once, with that click, when
    [listener] gets to its test with [shouldListen] true, and not at all
    when the flag is false there or when the ignore check throws before
    the test.  For a click with [detail] 0 the value tested is "no ignore
    entry matches", and the check throws when it reaches a string that is
    not a selector; for any other click the value tested is the one the
    flag has when the click arrives.  A pointerdown sets the flag to "no
    ignore entry matches, the target resolves and the composed path of the
    pointerdown does not include it", and leaves it as it is when the
    ignore check throws. *)
Theorem click_calls_handler_iff_listening P tr i fr r env e el :
  frames (world (run P tr start)) !! i = Some fr ->
  In r (registry (world (run P tr start))) -> reg_cb r = CbListener i ->
  ev_type e = click ->
  unrefElement env (target fr) = Some el ->
  calls_of i (dispatchEvent (window fr) env e (world (run P tr start)))
    = calls_of i (world (run P tr start))
      ++ (if inside e el then []
          else match click_fires env fr e with
               | Some true => [e]
               | Some false | None => []
               end) /\
  (forall rd env0 e0,
     In rd (registry (world (run P tr start))) -> reg_cb rd = CbPointerDown i ->
     ev_type e0 = pointerdown ->
     get_shouldListen i (dispatchEvent (window fr) env0 e0 (world (run P tr start)))
       = match pointerdown_shouldListen env0 fr e0 with
         | Some b => b
         | None => shouldListen fr
         end).
Proof.
  intros Hfr Hr Hcb Hty Hel. split.
  - destruct (dispatch_click_self i env e _ fr r (wf_reachable P tr) Hfr Hr Hcb Hty)
      as [-> _].
    unfold listener_calls. by rewrite Hel.
  - intros rd env0 e0 Hrd Hcbd Hty0.
    destruct (dispatch_pointerdown_self i env0 e0 _ fr rd
                (wf_reachable P tr) Hfr Hrd Hcbd Hty0) as [-> _].
    by destruct (pointerdown_shouldListen env0 fr e0).
Qed.

Lemma click_calls_handler_iff_listening_witness :
  calls_of 0 (dispatchEvent 0 (page None) (click_at 30 1)
                (world (run desktop [Install (page None) 0 7 no_options] start)))
  = [click_at 30 1] /\
  calls_of 0 (dispatchEvent 0 (page None) click_in_child
                (world (run desktop [Install (page None) 0 7 no_options] start)))
  = [] /\
  get_shouldListen 0 (dispatchEvent 0 (page None) pointerdown_in_child
                (world (run desktop [Install (page None) 0 7 no_options] start)))
  = false /\
  calls_of 0 (dispatchEvent 0 (page None) (click_at 30 0)
                (world (run desktop
                   [Install (page None) 0 7 toolbar_and_invalid_ignored] start)))
  = [].
Proof.
  destruct (click_calls_handler_iff_listening desktop
              [Install (page None) 0 7 no_options] 0
              (mkFrame 0 7 0 [] (DragBool false) true false true None)
              (mkReg 0 0 click (CbListener 0) true true)
              (page None) (click_at 30 1) 10
              eq_refl (or_introl eq_refl) eq_refl eq_refl eq_refl) as [Hout Hdown].
  destruct (click_calls_handler_iff_listening desktop
              [Install (page None) 0 7 no_options] 0
              (mkFrame 0 7 0 [] (DragBool false) true false true None)
              (mkReg 0 0 click (CbListener 0) true true)
              (page None) click_in_child 10
              eq_refl (or_introl eq_refl) eq_refl eq_refl eq_refl) as [Hin _].
  destruct (click_calls_handler_iff_listening desktop
              [Install (page None) 0 7 toolbar_and_invalid_ignored] 0
              (mkFrame 0 7 0 [IgnoreSelector ".toolbar"; IgnoreSelector EmptyString]
                       (DragBool false) true false true None)
              (mkReg 0 0 click (CbListener 0) true true)
              (page None) (click_at 30 0) 10
              eq_refl (or_introl eq_refl) eq_refl eq_refl eq_refl) as [Hthrows _].
  split; [exact Hout|]. split; [exact Hin|]. split; [|exact Hthrows].
  exact (Hdown (mkReg 1 0 pointerdown (CbPointerDown 0) true false)
               (page None) pointerdown_in_child
               (or_intror (or_introl eq_refl)) eq_refl eq_refl).
Defined.

(** C2.  Whatever [distance] the options object carries, the gesture is
    suppressed exactly when the move is more than 4 units from the press:
    the option is never read.  With [distance] 10 a move of 6 units is
    suppressed, and with [distance] 2 a move of 3 units is not. *)
Theorem drag_threshold_ignores_distance :
  (forall distance x y,
     calls_of 0 (world (run desktop (gesture distance x y) start))
     = if (4 <? Z.abs x + Z.abs y)%Z then [] else [click_at 30 1]) /\
  calls_of 0 (world (run desktop (gesture (Some 10%Z) 6 0) start)) = [] /\
  calls_of 0 (world (run desktop (gesture (Some 2%Z) 3 0) start)) = [click_at 30 1].
Proof.
  split; [|split; reflexivity].
  intros distance x y. unfold gesture, run. simpl.
  unfold dispatchEvent at 2. simpl. unfold run_listener at 1. simpl.
  unfold onPointerMove. simpl.
  replace (Z.abs (0 - x) + Z.abs (0 - y))%Z with (Z.abs x + Z.abs y)%Z by lia.
  destruct (4 <? Z.abs x + Z.abs y)%Z; reflexivity.
Qed.

(** C3.  Stopping a detector while a gesture is tracked removes the click
    and pointerdown listeners, so a later outside click calls nothing; the
    pointermove listener of the gesture stays registered, [stopDragListener]
    still holds its remover, and a later move still runs it and clears
    [shouldListen]. *)
Theorem stop_leaves_drag_listener :
  registry (world (run desktop stopped_mid_gesture start))
    = [mkReg 2 0 pointermove (CbPointerMove 0 0 0) false false] /\
  frames (world (run desktop stopped_mid_gesture start))
    = [mkFrame 0 7 0 [] (DragObject None) true false true (Some (removeListener 2))] /\
  get_shouldListen 0
    (world (run desktop (stopped_mid_gesture ++ [Dispatch 0 (page None) (pointermove_to 9 0)])
              start)) = false /\
  calls_of 0
    (world (run desktop (stopped_mid_gesture ++ [Dispatch 0 (page None) (click_at 30 1)])
              start)) = [].
Proof. repeat split; reflexivity. Qed.

(** C4.  Reference 9 resolves to nothing.  A detector with [detectIframe]
    watching it gets a blur, and when the deferred check runs the iframe
    50 has the focus: the handler is called with the blur event.  The same
    detector calls nothing on a click or a pointerdown. *)
Theorem blur_calls_handler_without_target :
  unrefElement (page (Some 50)) 9 = None /\
  calls_of 0
    (world (run desktop
       [Install (page None) 9 7 iframe_detecting;
        Dispatch 0 (page None) blur_event;
        Timeout (page (Some 50))] start)) = [blur_event] /\
  calls_of 0
    (world (run desktop
       [Install (page None) 9 7 iframe_detecting;
        Dispatch 0 (page None) (pointerdown_at 30 0 0);
        Dispatch 0 (page None) (click_at 30 1)] start)) = [].
Proof. repeat split; reflexivity. Qed.


(** C5.  The blur listener of an installed detector with [detectIframe]
    calls nothing itself and queues one deferred check carrying the blur
    event.  When that check runs and the target resolves, the handler is
    called, once and with the blur event, exactly when the active element
    is an IFRAME that the watched element does not contain. *)
Theorem blur_defers_iframe_check P tr i fr r env e :
  frames (world (run P tr start)) !! i = Some fr ->
  In r (registry (world (run P tr start))) -> reg_cb r = CbBlur i ->
  ev_type e = blur ->
  timers_of i (dispatchEvent (window fr) env e (world (run P tr start)))
    = timers_of i (world (run P tr start)) ++ [e] /\
  calls (dispatchEvent (window fr) env e (world (run P tr start)))
    = calls (world (run P tr start)) /\
  forall W2 fr2 env2 rest el,
    timers W2 = (i, e) :: rest ->
    frames W2 !! i = Some fr2 ->
    unrefElement env2 (target fr2) = Some el ->
    calls_of i (runTimer env2 W2)
    = calls_of i W2
      ++ match activeElement env2 with
         | Some a =>
             if String.eqb (tagName env2 a) "IFRAME" && negb (contains env2 el a)
             then [e] else []
         | None => []
         end.
Proof.
  intros Hfr Hr Hcb Hty.
  pose proof (wf_reachable P tr) as H.
  assert (Hw : reg_window r = window fr).
  { destruct (wf_owner _ H r Hr) as (fr' & Hfr' & ->).
    rewrite Hcb in Hfr'. simpl in Hfr'. congruence. }
  split; [|split].
  - by apply (dispatch_blur_once i (window fr) env e _ r).
  - by rewrite dispatch_blur.
  - intros W2 fr2 env2 rest el Ht Hfr2 Hel.
    rewrite (runTimer_calls_of i env2 e rest W2 fr2 Ht Hfr2).
    unfold blur_check. rewrite Hel.
    by destruct (activeElement env2).
Qed.

Lemma blur_defers_iframe_check_witness :
  calls_of 0 (runTimer (page (Some 50))
                (dispatchEvent 0 (page None) blur_event
                   (world (run desktop [Install (page None) 0 7 iframe_detecting] start))))
    = [blur_event] /\
  calls_of 0 (runTimer (page (Some 51))
                (dispatchEvent 0 (page None) blur_event
                   (world (run desktop [Install (page None) 0 7 iframe_detecting] start))))
    = [].
Proof.
  destruct (blur_defers_iframe_check desktop
              [Install (page None) 0 7 iframe_detecting] 0
              (mkFrame 0 7 0 [] (DragBool false) true true true None)
              (mkReg 2 0 blur (CbBlur 0) false false)
              (page None) blur_event
              eq_refl (or_intror (or_intror (or_introl eq_refl))) eq_refl eq_refl)
    as (_ & _ & H).
  split.
  - exact (H (dispatchEvent 0 (page None) blur_event
                  (world (run desktop [Install (page None) 0 7 iframe_detecting] start)))
             (mkFrame 0 7 0 [] (DragBool false) true true true None)
             (page (Some 50)) [] 10 eq_refl eq_refl eq_refl).
  - exact (H (dispatchEvent 0 (page None) blur_event
                  (world (run desktop [Install (page None) 0 7 iframe_detecting] start)))
             (mkFrame 0 7 0 [] (DragBool false) true true true None)
             (page (Some 51)) [] 10 eq_refl eq_refl eq_refl).
Defined.

(** C6.  After two presses outside the watched element with no click in
    between, two pointermove listeners of the instance are registered:
    the pointerdown arrow function overwrites [stopDragListener] without
    calling it.  The first one is out of reach from then on; it survives
    the click that ends the gesture and the stop handle.  While it is
    there it measures every move from the first press: a later press at
    (100, 100), a move of one unit and a click outside call nothing. *)
Theorem second_press_leaks_drag_listener :
  drag_subscriptions 0 (world (run desktop two_presses start))
    = [mkReg 2 0 pointermove (CbPointerMove 0 0 0) false false;
       mkReg 3 0 pointermove (CbPointerMove 0 5 5) false false] /\
  drag_subscriptions 0
    (world (run desktop (two_presses ++ [Dispatch 0 (page None) (click_at 30 1); Stop 0])
              start))
    = [mkReg 2 0 pointermove (CbPointerMove 0 0 0) false false] /\
  calls_of 0
    (world (run desktop
       (two_presses ++ [Dispatch 0 (page None) (click_at 30 1);
                        Dispatch 0 (page None) (pointerdown_at 30 100 100);
                        Dispatch 0 (page None) (pointermove_to 101 100);
                        Dispatch 0 (page None) (click_at 30 1)])
       start))
    = [click_at 30 1].
Proof. repeat split; reflexivity. Qed.

(** C7.  When no window is available (none given and no default),
    [onClickOutside] returns [noop] and leaves the world as it is: no
    listener is added, no frame is created, nothing is thrown.  Calling the
    returned function does nothing, and whatever happens next, a handler
    that was given to no other detector is never called. *)
Theorem no_window_is_noop P env tgt h o :
  resolved_window P o = None ->
  (forall W, onClickOutside P env tgt h o W = (stop_noop, W)) /\
  (forall W, call_stop stop_noop W = W) /\
  (forall s tr,
     unused h (world s) -> Forall (installs_other h) tr ->
     forall c, In c (calls (world (run P tr (step P s (Install env tgt h o))))) ->
               c_handler c <> h).
Proof.
  intros Hw.
  assert (Heq : forall W, onClickOutside P env tgt h o W = (stop_noop, W)).
  { intros W. unfold onClickOutside. unfold resolved_window in Hw. by rewrite Hw. }
  split; [done|]. split; [done|].
  intros s tr Hs Htr. simpl. rewrite Heq.
  by apply (unused_run P h tr (mkSession (world s) (handles s ++ [stop_noop]))).
Qed.

Lemma no_window_is_noop_witness :
  onClickOutside server (page None) 0 7 no_options init = (stop_noop, init).
Proof.
  apply (no_window_is_noop server (page None) 0 7 no_options eq_refl).
Defined.

(** A click with [detail] 0 outside the watched element, on a detector
    whose second ignore entry is not a selector: the handler is not
    called, although no ignore entry matches the click. *)
Lemma synthetic_click_with_invalid_selector :
  ~ synthetic_click_claim desktop
      [Install (page None) 0 7 toolbar_and_invalid_ignored]
      0 (page None) (click_at 30 0).
Proof.
  intros H.
  specialize (H (mkFrame 0 7 0 [IgnoreSelector ".toolbar"; IgnoreSelector EmptyString]
                         (DragBool false) true false true None)
                (mkReg 0 0 click (CbListener 0) true true) 10
                eq_refl (or_introl eq_refl) eq_refl eq_refl eq_refl eq_refl eq_refl).
  destruct H as [H _]. vm_compute in H. discriminate H.
Qed.

(** The same click after a press on the toolbar: the press cleared
    [shouldListen], and the click neither recomputes nor resets it. *)
Lemma synthetic_click_keeps_cleared_flag :
  ~ synthetic_click_claim desktop
      [Install (page None) 0 7 toolbar_and_invalid_ignored;
       Dispatch 0 (page None) (pointerdown_at 40 0 0)]
      0 (page None) (click_at 30 0).
Proof.
  intros H.
  specialize (H (mkFrame 0 7 0 [IgnoreSelector ".toolbar"; IgnoreSelector EmptyString]
                         (DragBool false) true false false None)
                (mkReg 0 0 click (CbListener 0) true true) 10
                eq_refl (or_introl eq_refl) eq_refl eq_refl eq_refl eq_refl eq_refl).
  destruct H as [_ H]. vm_compute in H. discriminate H.
Qed.

(** C8 (amended).  For a click with [detail] 0 outside the resolved watched
    element: when the ignore check returns, the flag is recomputed from it
    alone, so the handler is called exactly when no ignore entry matches,
    whatever the flag was, and [shouldListen] is true afterwards; when the
    ignore check throws, the handler is not called and [shouldListen] keeps
    the value it had.  And whenever the flag tested by [listener] is false,
    for any [detail], the handler is not called and [shouldListen] is true
    afterwards. *)
Theorem synthetic_click_recomputes_shouldListen P tr i fr r env e el :
  frames (world (run P tr start)) !! i = Some fr ->
  In r (registry (world (run P tr start))) -> reg_cb r = CbListener i ->
  ev_type e = click ->
  unrefElement env (target fr) = Some el ->
  inside e el = false ->
  (detail e = 0%Z ->
     match shouldIgnore env (ignore fr) e with
     | Some ign =>
         click_fires env fr e = Some (negb ign) /\
         calls_of i (dispatchEvent (window fr) env e (world (run P tr start)))
           = calls_of i (world (run P tr start)) ++ (if ign then [] else [e]) /\
         get_shouldListen i (dispatchEvent (window fr) env e (world (run P tr start)))
           = true
     | None =>
         click_fires env fr e = None /\
         calls_of i (dispatchEvent (window fr) env e (world (run P tr start)))
           = calls_of i (world (run P tr start)) /\
         get_shouldListen i (dispatchEvent (window fr) env e (world (run P tr start)))
           = shouldListen fr
     end) /\
  (click_fires env fr e = Some false ->
     calls_of i (dispatchEvent (window fr) env e (world (run P tr start)))
       = calls_of i (world (run P tr start)) /\
     get_shouldListen i (dispatchEvent (window fr) env e (world (run P tr start)))
       = true).
Proof.
  intros Hfr Hr Hcb Hty Hel Hout.
  destruct (dispatch_click_self i env e _ fr r (wf_reachable P tr) Hfr Hr Hcb Hty)
    as [Hc Hs].
  unfold listener_calls in Hc. unfold listener_shouldListen in Hs.
  rewrite Hel, Hout in Hc, Hs. rewrite Hc, Hs. split.
  - intros Hd. unfold click_fires. rewrite Hd. simpl.
    destruct (shouldIgnore env (ignore fr) e) as [[]|]; by rewrite ?app_nil_r.
  - intros ->. by rewrite app_nil_r.
Qed.

Lemma synthetic_click_recomputes_shouldListen_witness :
  calls_of 0 (dispatchEvent 0 (page None) (click_at 40 0)
                (world (run desktop [Install (page None) 0 7 toolbar_ignored] start)))
    = [] /\
  get_shouldListen 0 (dispatchEvent 0 (page None) (click_at 40 0)
                (world (run desktop [Install (page None) 0 7 toolbar_ignored] start)))
    = true /\
  calls_of 0 (dispatchEvent 0 (page None) (click_at 30 0)
                (world (run desktop
                   [Install (page None) 0 7 toolbar_and_invalid_ignored;
                    Dispatch 0 (page None) (pointerdown_at 40 0 0)] start)))
    = [] /\
  get_shouldListen 0 (dispatchEvent 0 (page None) (click_at 30 0)
                (world (run desktop
                   [Install (page None) 0 7 toolbar_and_invalid_ignored;
                    Dispatch 0 (page None) (pointerdown_at 40 0 0)] start)))
    = false.
Proof.
  destruct (synthetic_click_recomputes_shouldListen desktop
              [Install (page None) 0 7 toolbar_ignored] 0
              (mkFrame 0 7 0 [IgnoreSelector ".toolbar"] (DragBool false)
                       true false true None)
              (mkReg 0 0 click (CbListener 0) true true)
              (page None) (click_at 40 0) 10
              eq_refl (or_introl eq_refl) eq_refl eq_refl eq_refl eq_refl)
    as [_ H].
  destruct (synthetic_click_recomputes_shouldListen desktop
              [Install (page None) 0 7 toolbar_and_invalid_ignored;
               Dispatch 0 (page None) (pointerdown_at 40 0 0)] 0
              (mkFrame 0 7 0 [IgnoreSelector ".toolbar"; IgnoreSelector EmptyString]
                       (DragBool false) true false false None)
              (mkReg 0 0 click (CbListener 0) true true)
              (page None) (click_at 30 0) 10
              eq_refl (or_introl eq_refl) eq_refl eq_refl eq_refl eq_refl)
    as [Hthrows _].
  destruct (H eq_refl) as [Hcalls Hflag].
  destruct (Hthrows eq_refl) as (_ & Hcalls' & Hflag').
  repeat split; assumption.
Defined.

(** C9.  On iOS: as long as no detector has been created the flag is
    unset and nothing is patched; the call that creates the first detector
    sets the flag and adds the no-op click listener to every child of the
    body and to the root element; the flag is set whenever a detector
    exists; and once it is set, whatever happens next, further calls of
    [onClickOutside] included, it stays set and no listener is added to
    any element. *)
Theorem iOS_workaround_once P tr :
  isIOS P = true ->
  (frames (world (run P tr start)) = [] ->
     _iOSWorkaround (world (run P tr start)) = false /\
     noopClick (world (run P tr start)) = []) /\
  (forall env tgt h o w,
     frames (world (run P tr start)) = [] -> resolved_window P o = Some w ->
     _iOSWorkaround (snd (onClickOutside P env tgt h o (world (run P tr start)))) = true /\
     noopClick (snd (onClickOutside P env tgt h o (world (run P tr start))))
       = bodyChildren env ++ [documentElement env]) /\
  (frames (world (run P tr start)) <> [] ->
     _iOSWorkaround (world (run P tr start)) = true) /\
  (_iOSWorkaround (world (run P tr start)) = true ->
   forall tr',
     _iOSWorkaround (world (run P (tr ++ tr') start)) = true /\
     noopClick (world (run P (tr ++ tr') start)) = noopClick (world (run P tr start))).
Proof.
  intros HiOS.
  pose proof (workaround_tracks_frames_run P tr HiOS) as Hinv.
  assert (Hbefore : frames (world (run P tr start)) = [] ->
            _iOSWorkaround (world (run P tr start)) = false /\
            noopClick (world (run P tr start)) = []).
  { intros He. destruct Hinv as [(? & ? & _)|[_ Hlt]]; [done|].
    rewrite He in Hlt. simpl in Hlt. lia. }
  split; [done|]. split; [|split].
  - intros env tgt h o w He Hw. destruct (Hbefore He) as [Hf Hn].
    pose proof (onClickOutside_platform_state P env tgt h o (world (run P tr start))) as Hs.
    rewrite Hw in Hs. destruct Hs as (-> & -> & _).
    by rewrite HiOS, Hf, Hn, orb_true_r.
  - intros Hne. destruct Hinv as [(_ & _ & Hl)|[? _]]; [|done].
    destruct (frames (world (run P tr start))); [done|discriminate].
  - intros Hf tr'. unfold run. rewrite fold_left_app.
    by apply (workaround_is_final P _ tr' (run P tr start)).
Qed.

Lemma iOS_workaround_once_witness :
  _iOSWorkaround (world (run iPhone [Install (page None) 0 7 no_options] start)) = true /\
  noopClick (world (run iPhone [Install (page None) 0 7 no_options] start)) = [2; 3; 1] /\
  noopClick (world (run iPhone
      ([Install (page None) 0 7 no_options]
       ++ [Install (page None) 1 8 no_options; Dispatch 0 (page None) (click_at 30 1)])
      start)) = [2; 3; 1].
Proof.
  destruct (iOS_workaround_once iPhone [] eq_refl) as (_ & Hfirst & _).
  destruct (Hfirst (page None) 0 7 no_options 0 eq_refl eq_refl) as [Hflag Hnoop].
  destruct (iOS_workaround_once iPhone [Install (page None) 0 7 no_options] eq_refl)
    as (_ & _ & _ & Hlater).
  split; [exact Hflag|]. split; [exact Hnoop|].
  destruct (Hlater Hflag
              [Install (page None) 1 8 no_options; Dispatch 0 (page None) (click_at 30 1)])
    as [_ Hsame].
  exact Hsame.
Defined.

(** C10.  The blur arrow function and its deferred callback leave the
    frames (hence [shouldListen] and [stopDragListener]) and the listeners
    as they are, and whether the handler is called is decided by
    [blur_check], a function of the document and the target reference
    alone.  So the handler is called through blur although the focused
    iframe is on the ignore list and a tracked gesture is under way, and
    the gesture state is the same afterwards. *)
Theorem blur_path_skips_gesture_state :
  (forall i e W,
     frames (onBlur i e W) = frames W /\ registry (onBlur i e W) = registry W /\
     calls (onBlur i e W) = calls W) /\
  (forall i env e W,
     frames (onBlurTimeout i env e W) = frames W /\
     registry (onBlurTimeout i env e W) = registry W /\
     calls (onBlurTimeout i env e W)
     = calls W ++ match frames W !! i with
                  | None => []
                  | Some fr => if blur_check env (target fr)
                               then [mkCall i (handler fr) e] else []
                  end) /\
  (shouldIgnore (page (Some 50)) [IgnoreRef 2] (click_at 50 1) = Some true /\
   length (registry (world (run desktop mid_gesture start))) = 4 /\
   calls_of 0 (world (run desktop
                 (mid_gesture ++ [Dispatch 0 (page None) blur_event;
                                  Timeout (page (Some 50))]) start))
     = [blur_event] /\
   frames (world (run desktop
                 (mid_gesture ++ [Dispatch 0 (page None) blur_event;
                                  Timeout (page (Some 50))]) start))
     = frames (world (run desktop mid_gesture start)) /\
   registry (world (run desktop
                 (mid_gesture ++ [Dispatch 0 (page None) blur_event;
                                  Timeout (page (Some 50))]) start))
     = registry (world (run desktop mid_gesture start))).
Proof.
  split; [|split].
  - intros i e W. by unfold onBlur.
  - intros i env e W. destruct (onBlurTimeout_rest i env e W) as (-> & -> & _).
    by rewrite onBlurTimeout_calls.
  - vm_compute. repeat split.
Qed.

(** * Further properties *)

(** ** Supporting lemmas *)

Lemma dispatch_keeps w env e W r :
  wf W -> In r (registry W) -> reg_type r <> pointermove ->
  In r (registry (dispatchEvent w env e W)).
Proof.
  unfold dispatchEvent. generalize (dispatch_order w (ev_type e) W) as l.
  intros l. revert W. induction l as [|a l IH]; intros W H Hr Hty; simpl; [done|].
  apply IH; auto using wf_run_listener.
  unfold run_listener. case_match; auto using invoke_keeps.
Qed.

Lemma has_closure_stable i fr : prim_stable (has_closure i fr).
Proof.
  split; unfold has_closure; simpl.
  - intros j b W (fr' & Hfr & Hs).
    eapply alter_lookup_fwd in Hfr as (y & Hy & [->|[_ ->]]); eauto.
  - intros j f W (fr' & Hfr & Hs).
    eapply alter_lookup_fwd in Hfr as (y & Hy & [->|[_ ->]]); eauto.
  - intros fn W H. by destruct fn.
  - done.
  - intros j e W H. unfold call_handler. by case_match.
  - done.
  - done.
Qed.

Lemma has_closure_self i fr W : frames W !! i = Some fr -> has_closure i fr W.
Proof. intros H. exists fr. split; [done|]. by repeat split. Qed.

(** ** The ignore check *)

Lemma ignores_true env e entry :
  ignores env e entry = Some true <->
  exists el, designates env entry el /\ inside e el = true.
Proof.
  unfold ignores, inside. destruct entry as [s|r]; simpl.
  - destruct (querySelectorAll env s) as [els|]; split.
    + intros [= (el & Hel & Hm)%existsb_exists]. eauto.
    + intros (el & (els' & [= <-] & Hel) & Hm). f_equal. apply existsb_exists. eauto.
    + discriminate.
    + by intros (el & (els' & Hq & _) & _).
  - destruct (unrefElement env r) as [el|]; split.
    + intros [= Hm]. eauto.
    + intros (el' & [= <-] & Hm). by f_equal.
    + discriminate.
    + by intros (el & Hr & _).
Qed.

Lemma ignores_false env e entry el :
  ignores env e entry = Some false -> designates env entry el -> inside e el = false.
Proof.
  intros Hi Hd. destruct (inside e el) eqn:Hin; [|done].
  assert (Ht : ignores env e entry = Some true) by (apply ignores_true; eauto).
  congruence.
Qed.

Lemma ignores_throws env e entry :
  ignores env e entry = None <->
  exists s, entry = IgnoreSelector s /\ querySelectorAll env s = None.
Proof.
  unfold ignores. destruct entry as [s|r].
  - destruct (querySelectorAll env s) eqn:Hq; split; try done.
    + intros (s' & [= <-] & Hq'). congruence.
    + eauto.
  - split; [done|]. by intros (s & ? & _).
Qed.

(** X1.  The ignore check tries the entries in order and stops at the
    first that settles it.  It throws exactly when the list holds a string
    that is not a selector and no entry before that string matches the
    event; it answers true exactly when some entry designates an element
    that is the event's target or lies on its composed path and every
    string before that entry is a selector.  So an invalid selector behind
    a matching entry goes unnoticed, and one in front of it hides the
    match. *)
Theorem shouldIgnore_first_settles env ign e :
  (shouldIgnore env ign e = None <->
   exists l1 s l2,
     ign = l1 ++ IgnoreSelector s :: l2 /\ querySelectorAll env s = None /\
     forall entry el, In entry l1 -> designates env entry el -> inside e el = false) /\
  (shouldIgnore env ign e = Some true <->
   exists l1 entry l2 el,
     ign = l1 ++ entry :: l2 /\ designates env entry el /\ inside e el = true /\
     forall s, In (IgnoreSelector s) l1 -> querySelectorAll env s <> None).
Proof.
  unfold shouldIgnore. split; split.
  - induction ign as [|x ign IH]; simpl; [discriminate|].
    destruct (ignores env e x) as [[]|] eqn:Hx; [discriminate| |].
    + intros (l1 & s & l2 & -> & Hq & Hno)%IH.
      exists (x :: l1), s, l2. repeat split; [done|].
      intros entry el [<-|Hin]; eauto using ignores_false.
    + intros _. apply ignores_throws in Hx as (s & -> & Hq).
      exists [], s, ign. repeat split; [done|]. intros ? ? [].
  - intros (l1 & s & l2 & -> & Hq & Hno).
    induction l1 as [|x l1 IH]; simpl.
    + by rewrite Hq.
    + destruct (ignores env e x) as [[]|] eqn:Hx; [| |done].
      * apply ignores_true in Hx as (el & Hd & Hin).
        rewrite (Hno x el (or_introl eq_refl) Hd) in Hin. discriminate.
      * apply IH. intros entry el Hentry. apply Hno. by right.
  - induction ign as [|x ign IH]; simpl; [discriminate|].
    destruct (ignores env e x) as [[]|] eqn:Hx; [| |discriminate].
    + intros _. apply ignores_true in Hx as (el & Hd & Hin).
      exists [], x, ign, el. repeat split; [done..|]. intros ? [].
    + intros (l1 & entry & l2 & el & -> & Hd & Hin & Hok)%IH.
      exists (x :: l1), entry, l2, el. repeat split; [done..|].
      intros s [->|Hs]; [|by apply Hok]. simpl in Hx.
      by destruct (querySelectorAll env s).
  - intros (l1 & entry & l2 & el & -> & Hd & Hin & Hok).
    induction l1 as [|x l1 IH]; simpl.
    + assert (Ht : ignores env e entry = Some true) by (apply ignores_true; eauto).
      by rewrite Ht.
    + destruct (ignores env e x) as [[]|] eqn:Hx; [done| |].
      * apply IH. intros s Hs. apply Hok. by right.
      * apply ignores_throws in Hx as (s & -> & Hq).
        destruct (Hok s (or_introl eq_refl) Hq).
Qed.

(** ** [toValue] *)

(** [toValue] unwraps one level and stops: when what it returns is
    neither a function nor a ref, normalising that again (under either
    exported name) gives the same value.  The hypothesis is needed: what a
    getter returns is not unwrapped, and a function held by a ref is not
    called. *)
Lemma toValue_once hp r :
  is_plain (toValue hp r) = true ->
  toValue hp (toValue hp r) = toValue hp r /\
  resolveUnref hp (toValue hp r) = toValue hp r.
Proof.
  unfold resolveUnref. intros H. destruct (toValue hp r); try discriminate. done.
Qed.

Lemma toValue_once_witness :
  toValue (mkHeap (fun _ => VPlain 5) (fun _ => VRef 0))
          (toValue (mkHeap (fun _ => VPlain 5) (fun _ => VRef 0)) (VRef 3))
  = VPlain 5.
Proof.
  apply (toValue_once (mkHeap (fun _ => VPlain 5) (fun _ => VRef 0)) (VRef 3) eq_refl).
Defined.

(** ** Events and handler calls *)

(** X2.  Only a click can make a listener call a handler: dispatching a
    pointerdown, a pointermove or a blur leaves the record of handler
    calls as it is, for every detector. *)
Theorem only_clicks_call P tr w env e :
  ev_type e <> click ->
  calls (dispatchEvent w env e (world (run P tr start)))
  = calls (world (run P tr start)).
Proof. intros Hty. apply dispatch_other_calls; auto using wf_reachable. Qed.

Lemma only_clicks_call_witness :
  calls (dispatchEvent 0 (page None) (pointerdown_at 30 0 0)
           (world (run desktop [Install (page None) 0 7 no_options] start)))
  = [].
Proof.
  apply (only_clicks_call desktop [Install (page None) 0 7 no_options] 0
           (page None) (pointerdown_at 30 0 0)).
  discriminate.
Defined.

(** X3.  What a click leaves in [shouldListen]: true when the listener
    gets to its test, that is when the target resolves, the click is
    outside the watched element and, for a click with [detail] 0, the
    ignore check returns, whether or not the handler was called then; the
    value it had when the target does not resolve, the click is inside, or
    the ignore check throws. *)
Theorem click_leaves_shouldListen P tr i fr r env e :
  frames (world (run P tr start)) !! i = Some fr ->
  In r (registry (world (run P tr start))) -> reg_cb r = CbListener i ->
  ev_type e = click ->
  get_shouldListen i (dispatchEvent (window fr) env e (world (run P tr start)))
  = match unrefElement env (target fr) with
    | None => shouldListen fr
    | Some el =>
        if inside e el then shouldListen fr
        else if (detail e =? 0)%Z
        then match shouldIgnore env (ignore fr) e with
             | Some _ => true
             | None => shouldListen fr
             end
        else true
    end.
Proof.
  intros Hfr Hr Hcb Hty.
  destruct (dispatch_click_self i env e _ fr r (wf_reachable P tr) Hfr Hr Hcb Hty)
    as [_ ->].
  unfold listener_shouldListen, click_fires.
  destruct (unrefElement env (target fr)); [|done].
  destruct (inside e n); [done|].
  destruct (detail e =? 0)%Z; [|done].
  by destruct (shouldIgnore env (ignore fr) e).
Qed.

Lemma click_leaves_shouldListen_witness :
  get_shouldListen 0
    (dispatchEvent 0 (page None) click_in_child
       (world (run desktop [Install (page None) 0 7 no_options;
                            Dispatch 0 (page None) pointerdown_in_child] start)))
  = false /\
  get_shouldListen 0
    (dispatchEvent 0 (page None) (click_at 30 0)
       (world (run desktop [Install (page None) 0 7 toolbar_and_invalid_ignored;
                            Dispatch 0 (page None) (pointerdown_at 40 0 0)] start)))
  = false.
Proof.
  split.
  - apply (click_leaves_shouldListen desktop
             [Install (page None) 0 7 no_options;
              Dispatch 0 (page None) pointerdown_in_child] 0
             (mkFrame 0 7 0 [] (DragBool false) true false false None)
             (mkReg 0 0 click (CbListener 0) true true)
             (page None) click_in_child
             eq_refl (or_introl eq_refl) eq_refl eq_refl).
  - apply (click_leaves_shouldListen desktop
             [Install (page None) 0 7 toolbar_and_invalid_ignored;
              Dispatch 0 (page None) (pointerdown_at 40 0 0)] 0
             (mkFrame 0 7 0 [IgnoreSelector ".toolbar"; IgnoreSelector EmptyString]
                      (DragBool false) true false false None)
             (mkReg 0 0 click (CbListener 0) true true)
             (page None) (click_at 30 0)
             eq_refl (or_introl eq_refl) eq_refl eq_refl).
Defined.

(** X4.  An event that reaches another window than the one a detector
    listens on changes neither the detector's closure state nor its handler
    calls. *)
Theorem other_window_untouched P tr i fr w env e :
  frames (world (run P tr start)) !! i = Some fr ->
  w <> window fr ->
  frames (dispatchEvent w env e (world (run P tr start))) !! i = Some fr /\
  calls_of i (dispatchEvent w env e (world (run P tr start)))
    = calls_of i (world (run P tr start)).
Proof.
  intros Hfr Hw. pose proof (wf_reachable P tr) as H.
  destruct (fold_others i env e (dispatch_order w (ev_type e) (world (run P tr start)))
              _ H) as (Hf & Hc & _).
  - intros r (Hr & Hrw & _)%In_dispatch_order Hi.
    destruct (wf_owner _ H r Hr) as (fr' & Hfr' & Hwin).
    rewrite <- Hi, Hfr in Hfr'. injection Hfr' as <-. congruence.
  - unfold dispatchEvent. by rewrite Hf, Hc.
Qed.

Lemma other_window_untouched_witness :
  calls_of 0
    (dispatchEvent 1 (page None) (click_at 30 1)
       (world (run desktop [Install (page None) 0 7 no_options;
                            Install (page None) 0 8 (in_window 1)] start)))
  = [].
Proof.
  apply (other_window_untouched desktop
           [Install (page None) 0 7 no_options;
            Install (page None) 0 8 (in_window 1)] 0
           (mkFrame 0 7 0 [] (DragBool false) true false true None)
           1 (page None) (click_at 30 1) eq_refl).
  discriminate.
Defined.

(** ** Movement *)

(** X5.  A pointermove that is within 4 units (sum of the two absolute
    differences) of the origin of every tracked gesture changes nothing at
    all: no flag, no listener, no call. *)
Theorem small_move_changes_nothing P tr w env e :
  ev_type e = pointermove ->
  (forall r j x y,
     In r (registry (world (run P tr start))) -> reg_cb r = CbPointerMove j x y ->
     (Z.abs (x - ev_x e) + Z.abs (y - ev_y e) <= 4)%Z) ->
  dispatchEvent w env e (world (run P tr start)) = world (run P tr start).
Proof.
  intros Hty Hnear. pose proof (wf_reachable P tr) as H.
  unfold dispatchEvent. rewrite Hty.
  assert (Hl : forall r, In r (dispatch_order w pointermove (world (run P tr start))) ->
                 invoke (reg_cb r) env e (world (run P tr start))
                 = world (run P tr start)).
  { intros r (Hr & _ & Ht)%In_dispatch_order.
    pose proof (wf_typed _ H r Hr) as Hc. rewrite Ht in Hc.
    destruct (reg_cb r) as [j|j|j x y|j] eqn:Hcb; try discriminate.
    simpl. unfold onPointerMove.
    pose proof (Hnear r j x y Hr Hcb) as Hle.
    destruct (Z.ltb_spec 4 (Z.abs (x - ev_x e) + Z.abs (y - ev_y e))); [lia|done]. }
  induction (dispatch_order w pointermove (world (run P tr start))) as [|a l IH];
    simpl; [done|].
  unfold run_listener at 2. rewrite (Hl a (or_introl eq_refl)).
  destruct (registered (reg_id a) (world (run P tr start)));
    apply IH; intros r Hr; apply Hl; by right.
Qed.

Lemma small_move_changes_nothing_witness :
  dispatchEvent 0 (page None) (pointermove_to 2 2)
    (world (run desktop [Install (page None) 0 7 (dragging None);
                         Dispatch 0 (page None) (pointerdown_at 30 0 0)] start))
  = world (run desktop [Install (page None) 0 7 (dragging None);
                        Dispatch 0 (page None) (pointerdown_at 30 0 0)] start).
Proof.
  apply (small_move_changes_nothing desktop
           [Install (page None) 0 7 (dragging None);
            Dispatch 0 (page None) (pointerdown_at 30 0 0)] 0
           (page None) (pointermove_to 2 2) eq_refl).
  intros r j x y Hr Hcb. vm_compute in Hr.
  destruct Hr as [<-|[<-|[<-|[]]]]; try discriminate.
  injection Hcb as <- <- <-. vm_compute. discriminate.
Defined.

(** ** The workaround off iOS *)

(** X6.  When [isIOS] is false the workaround is never applied: along
    every run the flag stays unset and no no-op click listener is added to
    any element. *)
Theorem no_workaround_off_iOS P tr :
  isIOS P = false ->
  _iOSWorkaround (world (run P tr start)) = false /\
  noopClick (world (run P tr start)) = [].
Proof.
  intros HiOS.
  apply (stable_run _ (platform_state_stable (fun f n _ => f = false /\ n = []))
           P (fun _ => True)); [|by apply Forall_forall|done].
  intros env tgt h o W _ [Hf Hn].
  pose proof (onClickOutside_platform_state P env tgt h o W) as Hs.
  destruct (resolved_window P o); [|by rewrite Hs].
  destruct Hs as (-> & -> & _). by rewrite HiOS, Hf, Hn.
Qed.

Lemma no_workaround_off_iOS_witness :
  _iOSWorkaround (world (run desktop [Install (page None) 0 7 no_options] start)) = false /\
  noopClick (world (run desktop [Install (page None) 0 7 no_options] start)) = [].
Proof.
  apply (no_workaround_off_iOS desktop [Install (page None) 0 7 no_options] eq_refl).
Defined.

(** ** The stop handle, continued *)

Lemma filter_filter {A} (p q : A -> bool) (l : list A) :
  List.filter p (List.filter q l) = List.filter (fun x => q x && p x) l.
Proof.
  induction l as [|a l IH]; simpl; [done|].
  destruct (q a) eqn:Hq; simpl; [|done].
  destruct (p a); simpl; by rewrite IH.
Qed.

Lemma filter_ext_in {A} (p q : A -> bool) (l : list A) :
  (forall x, In x l -> p x = q x) -> List.filter p l = List.filter q l.
Proof.
  induction l as [|a l IH]; simpl; intros H; [done|].
  rewrite (H a (or_introl eq_refl)), IH; [done|]. intros x Hx. apply H. by right.
Qed.

Lemma filter_all {A} (p : A -> bool) (l : list A) :
  (forall x, In x l -> p x = true) -> List.filter p l = l.
Proof.
  induction l as [|a l IH]; simpl; intros H; [done|].
  rewrite (H a (or_introl eq_refl)), IH; [done|]. intros x Hx. apply H. by right.
Qed.

(** A stop handle filters the listeners and touches nothing else. *)
Lemma call_stop_eq cleanup W :
  call_stop (stop cleanup) W = set_registry (List.filter (kept_by cleanup)) W.
Proof.
  simpl. revert W. induction cleanup as [|fn cleanup IH]; intros W; simpl.
  - unfold set_registry. rewrite filter_all by done. by destruct W.
  - rewrite IH. destruct fn as [|id]; simpl; unfold set_registry; simpl.
    + f_equal.
    + f_equal. apply filter_filter.
Qed.

Lemma kept_new_listeners i n w o :
  List.filter (kept_by (new_cleanup n o)) (new_listeners i n w o) = [].
Proof.
  unfold kept_by, new_cleanup, new_listeners.
  destruct (default false (o_detectIframe o));
    repeat (cbn -[Nat.eqb]; rewrite ?Nat.eqb_refl; cbn -[Nat.eqb];
            rewrite ?andb_false_r); done.
Qed.

(** X7.  Installing a detector and calling the returned handle at once
    gives back the listeners there were before, in the same order: the
    handle removes exactly what the call added.  (The closure environment
    and, on iOS, the workaround stay.) *)
Theorem install_then_stop_restores_listeners P tr env tgt h o :
  registry (call_stop (fst (onClickOutside P env tgt h o (world (run P tr start))))
                      (snd (onClickOutside P env tgt h o (world (run P tr start)))))
  = registry (world (run P tr start)).
Proof.
  pose proof (wf_reachable P tr) as H.
  set (W := world (run P tr start)) in *.
  pose proof (onClickOutside_world P env tgt h o W) as Hworld.
  destruct (resolved_window P o) as [w|] eqn:Hw.
  - rewrite Hworld, (onClickOutside_handle P env tgt h o W w Hw), call_stop_eq.
    unfold set_registry. cbn [registry].
    destruct (installed_fields P env tgt h w o W) as (_ & -> & _).
    rewrite List.filter_app.
    assert (Hold : List.filter (kept_by (new_cleanup (next_id W) o)) (registry W)
                   = registry W).
    { apply filter_all. intros r Hr. pose proof (wf_fresh W H r Hr) as Hlt.
      unfold kept_by, new_cleanup.
      destruct (default false (o_detectIframe o)); simpl;
        repeat match goal with
               | |- context [?a =? ?b] => rewrite (proj2 (Nat.eqb_neq a b)) by lia
               end; done. }
    rewrite Hold, kept_new_listeners. apply app_nil_r.
  - assert (Heq : onClickOutside P env tgt h o W = (stop_noop, W)).
    { unfold onClickOutside. unfold resolved_window in Hw. by rewrite Hw. }
    by rewrite Heq.
Qed.

(** X8.  Calling a stop handle a second time changes nothing: the world
    after two calls is the world after one. *)
Theorem stop_twice_is_stop_once sh W :
  call_stop sh (call_stop sh W) = call_stop sh W.
Proof.
  destruct sh as [|cleanup]; [done|].
  rewrite !call_stop_eq. unfold set_registry. simpl. f_equal.
  rewrite filter_filter. apply filter_ext_in. intros x _.
  by destruct (kept_by cleanup x).
Qed.

(** X9.  The stop handle does not cancel a deferred blur check: a check
    that is pending when the handle is called still runs, and still calls
    the handler when the active element is an IFRAME outside the target. *)
Theorem pending_check_survives_stop sh W i e rest fr env :
  timers W = (i, e) :: rest ->
  frames W !! i = Some fr ->
  timers (call_stop sh W) = (i, e) :: rest /\
  calls_of i (runTimer env (call_stop sh W))
    = calls_of i W ++ (if blur_check env (target fr) then [e] else []).
Proof.
  intros Ht Hfr.
  assert (Hsame : timers (call_stop sh W) = timers W /\
                  frames (call_stop sh W) = frames W /\
                  calls (call_stop sh W) = calls W).
  { destruct sh as [|cleanup]; [done|]. by rewrite call_stop_eq. }
  destruct Hsame as (Ht' & Hf' & Hc'). rewrite Ht', Ht. split; [done|].
  rewrite (runTimer_calls_of i env e rest (call_stop sh W) fr); [|congruence..].
  unfold calls_of. by rewrite Hc'.
Qed.

Lemma pending_check_survives_stop_witness :
  calls_of 0
    (world (run desktop
       [Install (page None) 0 7 iframe_detecting;
        Dispatch 0 (page None) blur_event;
        Stop 0;
        Timeout (page (Some 50))] start))
  = [blur_event].
Proof.
  apply (pending_check_survives_stop
           (stop [removeListener 0; removeListener 1; removeListener 2])
           (world (run desktop
              [Install (page None) 0 7 iframe_detecting;
               Dispatch 0 (page None) blur_event] start))
           0 blur_event []
           (mkFrame 0 7 0 [] (DragBool false) true true true None)
           (page (Some 50)) eq_refl eq_refl).
Defined.

(** X10.  Once the handle returned by a call of [onClickOutside] has been
    called, no click calls the handler of that detector again, whatever
    happened between the call and the stop and whatever happens after. *)
Theorem no_click_after_stop P tr0 env tgt h o w tr1 tr2 wc envc e :
  resolved_window P o = Some w -> ev_type e = click ->
  calls_of (length (frames (world (run P tr0 start))))
    (dispatchEvent wc envc e
       (world (run P (Install env tgt h o
                      :: tr1 ++ Stop (length (handles (run P tr0 start))) :: tr2)
                 (run P tr0 start))))
  = calls_of (length (frames (world (run P tr0 start))))
      (world (run P (Install env tgt h o
                     :: tr1 ++ Stop (length (handles (run P tr0 start))) :: tr2)
                (run P tr0 start))).
Proof.
  intros Hw Hty. apply (stop_silences_clicks P (run P tr0 start) env tgt h o w); auto.
  apply wf_reachable.
Qed.

Lemma no_click_after_stop_witness :
  calls_of 0
    (dispatchEvent 0 (page None) (click_at 30 1)
       (world (run desktop
          [Install (page None) 0 7 no_options;
           Dispatch 0 (page None) (pointerdown_at 30 0 0);
           Stop 0;
           Dispatch 0 (page None) (pointerdown_at 30 0 0)] start)))
  = [].
Proof.
  apply (no_click_after_stop desktop [] (page None) 0 7 no_options 0
           [Dispatch 0 (page None) (pointerdown_at 30 0 0)]
           [Dispatch 0 (page None) (pointerdown_at 30 0 0)]
           0 (page None) (click_at 30 1) eq_refl eq_refl).
Defined.

(** ** A press and its click *)

(** X11.  A press followed by its click, for a click outside the resolved
    watched element.  A click with [detail] other than 0 calls the handler,
    once, exactly when the press left [shouldListen] true: the press
    matched no ignore entry, found the target resolved and did not have it
    on its composed path, or its ignore check threw and the flag was true
    before.  The ignore list is not consulted again for such a click.  A
    click with [detail] 0 is decided by the ignore check on the click
    alone: the handler is called exactly when that check returns false. *)
Theorem press_then_click P tr i fr rc rd env0 e0 env e el :
  frames (world (run P tr start)) !! i = Some fr ->
  In rc (registry (world (run P tr start))) -> reg_cb rc = CbListener i ->
  In rd (registry (world (run P tr start))) -> reg_cb rd = CbPointerDown i ->
  ev_type e0 = pointerdown -> ev_type e = click ->
  unrefElement env (target fr) = Some el -> inside e el = false ->
  calls_of i (dispatchEvent (window fr) env e
                (dispatchEvent (window fr) env0 e0 (world (run P tr start))))
  = calls_of i (world (run P tr start))
    ++ (if (detail e =? 0)%Z
        then match shouldIgnore env (ignore fr) e with
             | Some false => [e]
             | Some true | None => []
             end
        else if match pointerdown_shouldListen env0 fr e0 with
                | Some b => b
                | None => shouldListen fr
                end
             then [e] else []).
Proof.
  intros Hfr Hrc Hcbc Hrd Hcbd Hty0 Hty Hel Hout.
  pose proof (wf_reachable P tr) as H.
  set (W := world (run P tr start)) in *.
  set (W1 := dispatchEvent (window fr) env0 e0 W).
  destruct (dispatch_pointerdown_self i env0 e0 W fr rd H Hfr Hrd Hcbd Hty0)
    as [Hg Hc]. fold W1 in Hg, Hc.
  assert (Hwf1 : wf W1) by (by apply wf_dispatchEvent).
  assert (Hrc1 : In rc (registry W1)).
  { apply dispatch_keeps; auto. rewrite (wf_typed W H rc Hrc), Hcbc. done. }
  destruct (stable_dispatchEvent _ (has_closure_stable i fr) (window fr) env0 e0 W
              (has_closure_self i fr W Hfr))
    as (fr1 & Hfr1 & Ht & _ & Hw & Hi & _). fold W1 in Hfr1.
  destruct (dispatch_click_self i env e W1 fr1 rc Hwf1 Hfr1 Hrc1 Hcbc Hty) as [Hcalls _].
  rewrite Hw in Hcalls. rewrite Hcalls, Hc. f_equal.
  unfold listener_calls, click_fires. rewrite Ht, Hel, Hout, Hi.
  unfold get_shouldListen in Hg. rewrite Hfr1 in Hg. rewrite Hg.
  destruct (detail e =? 0)%Z.
  - by destruct (shouldIgnore env (ignore fr) e) as [[]|].
  - unfold default. by repeat case_match.
Qed.

Lemma press_then_click_witness :
  calls_of 0
    (dispatchEvent 0 (page None) (click_at 30 1)
       (dispatchEvent 0 (page None) (pointerdown_at 40 0 0)
          (world (run desktop [Install (page None) 0 7 toolbar_ignored] start))))
  = [] /\
  calls_of 0
    (dispatchEvent 0 (page None) (click_at 30 1)
       (dispatchEvent 0 (page None) pointerdown_in_child
          (world (run desktop
                    [Install (page None) 0 7 toolbar_and_invalid_ignored] start))))
  = [click_at 30 1].
Proof.
  split.
  - apply (press_then_click desktop [Install (page None) 0 7 toolbar_ignored] 0
             (mkFrame 0 7 0 [IgnoreSelector ".toolbar"] (DragBool false)
                      true false true None)
             (mkReg 0 0 click (CbListener 0) true true)
             (mkReg 1 0 pointerdown (CbPointerDown 0) true false)
             (page None) (pointerdown_at 40 0 0) (page None) (click_at 30 1) 10
             eq_refl (or_introl eq_refl) eq_refl (or_intror (or_introl eq_refl)) eq_refl
             eq_refl eq_refl eq_refl eq_refl).
  - apply (press_then_click desktop
             [Install (page None) 0 7 toolbar_and_invalid_ignored] 0
             (mkFrame 0 7 0 [IgnoreSelector ".toolbar"; IgnoreSelector EmptyString]
                      (DragBool false) true false true None)
             (mkReg 0 0 click (CbListener 0) true true)
             (mkReg 1 0 pointerdown (CbPointerDown 0) true false)
             (page None) pointerdown_in_child (page None) (click_at 30 1) 10
             eq_refl (or_introl eq_refl) eq_refl (or_intror (or_introl eq_refl)) eq_refl
             eq_refl eq_refl eq_refl eq_refl).
Defined.

(** ** A new detector *)

Lemma calls_by_frames_stable : prim_stable calls_by_frames.
Proof.
  split; unfold calls_by_frames; simpl; intros; rewrite ?length_alter; auto.
  - destruct fn; simpl; auto.
  - unfold call_handler in *.
    destruct (frames W !! i) as [fr|] eqn:Hfr; simpl in *; auto.
    apply in_app_iff in H0 as [|[<-|[]]]; auto. simpl.
    eapply lookup_lt_Some; eauto.
Qed.

Lemma calls_by_frames_run P tr : calls_by_frames (world (run P tr start)).
Proof.
  apply (stable_run _ calls_by_frames_stable P (fun _ => True));
    [|by apply Forall_forall|by intros c []].
  intros env tgt h o W _ HW. rewrite onClickOutside_world.
  destruct (resolved_window P o) as [w|]; [|done].
  destruct (installed_fields P env tgt h w o W) as (Hf & _ & Hc & _).
  intros c. rewrite Hf, Hc, length_app. intros Hin%HW. lia.
Qed.

(** X12.  [shouldListen] starts out true: the first click a new detector
    sees, with no press before it, outside the resolved watched element,
    calls the handler once when its [detail] is not 0, whatever the ignore
    list holds; with [detail] 0 it calls the handler once exactly when the
    ignore check returns false, and not when an entry matches or the check
    throws. *)
Theorem first_click_of_new_detector P tr env0 tgt h o w env e el :
  resolved_window P o = Some w ->
  ev_type e = click ->
  unrefElement env tgt = Some el -> inside e el = false ->
  calls_of (length (frames (world (run P tr start))))
    (dispatchEvent w env e
       (snd (onClickOutside P env0 tgt h o (world (run P tr start)))))
  = if (detail e =? 0)%Z
    then match shouldIgnore env (default [] (o_ignore o)) e with
         | Some false => [e]
         | Some true | None => []
         end
    else [e].
Proof.
  intros Hw Hty Hel Hout.
  pose proof (wf_reachable P tr) as H.
  set (W := world (run P tr start)) in *.
  rewrite onClickOutside_world, Hw.
  destruct (installed_fields P env0 tgt h w o W) as (Hf & Hr & Hc & _).
  set (W1 := installed P env0 tgt h w o W) in *.
  assert (Hfr : frames W1 !! length (frames W) = Some (new_frame tgt h w o)).
  { rewrite Hf. apply lookup_snoc_Some. by right. }
  assert (Hin : In (mkReg (next_id W) w click (CbListener (length (frames W))) true
                          (default true (o_capture o))) (registry W1)).
  { rewrite Hr. apply in_app_iff. right. unfold new_listeners. simpl. by left. }
  destruct (dispatch_click_self (length (frames W)) env e W1 _ _
              (wf_installed P env0 tgt h w o W H) Hfr Hin eq_refl Hty) as [Hcalls _].
  simpl in Hcalls. rewrite Hcalls.
  assert (Hnone : calls_of (length (frames W)) W1 = []).
  { unfold calls_of. rewrite Hc.
    rewrite (filter_ext_in _ (fun _ => false)).
    - assert (Hnil : forall l : list Call, List.filter (fun _ => false) l = [])
        by (intros l; induction l; auto).
      by rewrite Hnil.
    - intros c Hc'. apply (calls_by_frames_run P tr) in Hc'.
      fold W in Hc'. apply Nat.eqb_neq. lia. }
  rewrite Hnone. unfold listener_calls, click_fires. simpl. rewrite Hel, Hout.
  destruct (detail e =? 0)%Z; simpl; [|done].
  by destruct (shouldIgnore env (default [] (o_ignore o)) e) as [[]|].
Qed.

Lemma first_click_of_new_detector_witness :
  calls_of 0
    (dispatchEvent 0 (page None) (click_at 40 1)
       (snd (onClickOutside desktop (page None) 0 7 toolbar_ignored
               (world (run desktop [] start)))))
  = [click_at 40 1] /\
  calls_of 0
    (dispatchEvent 0 (page None) (click_at 30 0)
       (snd (onClickOutside desktop (page None) 0 7 toolbar_and_invalid_ignored
               (world (run desktop [] start)))))
  = [].
Proof.
  split.
  - apply (first_click_of_new_detector desktop [] (page None) 0 7 toolbar_ignored 0
             (page None) (click_at 40 1) 10 eq_refl eq_refl eq_refl eq_refl).
  - apply (first_click_of_new_detector desktop [] (page None) 0 7
             toolbar_and_invalid_ignored 0
             (page None) (click_at 30 0) 10 eq_refl eq_refl eq_refl eq_refl).
Defined.

(** ** Invariants along a run *)

(** A property kept by every dispatch, timer, stop handle and call of
    [onClickOutside] holds along every run. *)
Lemma callbacks_run P (I : World -> Prop) :
  (forall w env e W, wf W -> I W -> I (dispatchEvent w env e W)) ->
  (forall env W, I W -> I (runTimer env W)) ->
  (forall sh W, I W -> I (call_stop sh W)) ->
  (forall env tgt h o w W, wf W -> I W -> I (installed P env tgt h w o W)) ->
  forall tr s, wf (world s) -> I (world s) -> I (world (run P tr s)).
Proof.
  intros Hd Ht Hs Hi tr. induction tr as [|st tr IH]; intros s Hwf HI; simpl; [done|].
  apply IH; [by apply wf_step|].
  destruct st as [env tgt h o|k|w env e|env]; simpl; auto.
  - pose proof (onClickOutside_world P env tgt h o (world s)) as Hw.
    destruct (onClickOutside P env tgt h o (world s)) as [sh W1]. simpl in *. subst W1.
    case_match; auto.
  - case_match; simpl; auto.
Qed.

Section DragOnlyWhenAsked.

Lemma drag_frames_only (f : Frame -> Frame) i W :
  (forall fr, ignoreDragging (f fr) = ignoreDragging fr) ->
  (forall fr, stopDragListener (f fr) = stopDragListener fr) ->
  drag_only_when_asked W -> drag_only_when_asked (set_frames (alter f i) W).
Proof.
  intros Hig Hsd [Hr Hf]. split; simpl.
  - intros r Hin Hty. destruct (Hr r Hin Hty) as (fr & Hfr & Htr).
    eapply alter_lookup_fwd in Hfr as (y & Hy & [->|[_ ->]]); eauto.
    exists (f fr). by rewrite Hig.
  - intros j fr Hfr Htr.
    apply alter_lookup_inv in Hfr as (x & Hx & [->|[_ ->]]); eauto.
    rewrite Hsd. apply (Hf j x Hx). by rewrite <- Hig.
Qed.

Lemma drag_set_shouldListen i b W :
  drag_only_when_asked W -> drag_only_when_asked (set_shouldListen i b W).
Proof. by apply drag_frames_only. Qed.

Lemma drag_call fn W : drag_only_when_asked W -> drag_only_when_asked (call fn W).
Proof.
  intros [Hr Hf]. destruct fn as [|id]; [done|]. split; simpl; [|done].
  intros r Hin. apply Hr. eapply In_filter_sub; eauto.
Qed.

Lemma drag_call_opt fn W : drag_only_when_asked W -> drag_only_when_asked (call_opt fn W).
Proof. destruct fn; simpl; auto using drag_call. Qed.

Lemma drag_call_handler i e W :
  drag_only_when_asked W -> drag_only_when_asked (call_handler i e W).
Proof. unfold call_handler. by case_match. Qed.

Lemma drag_startDragListener i e W fr :
  frames W !! i = Some fr -> truthy (ignoreDragging fr) = true ->
  drag_only_when_asked W -> drag_only_when_asked (startDragListener i e W).
Proof.
  intros Hfr Htr [Hr Hf]. unfold startDragListener. rewrite Hfr. split; simpl.
  - intros r [Hin|[<-|[]]]%in_app_iff Hty; simpl.
    + destruct (Hr r Hin Hty) as (fr' & Hfr' & Htr').
      eapply alter_lookup_fwd in Hfr' as (y & Hy & [->|[_ ->]]); eauto.
    + rewrite list_lookup_alter_eq, Hfr. simpl. eauto.
  - intros j fr' Hfr' Htr'.
    apply alter_lookup_inv in Hfr' as (x & Hx & [->|[<- ->]]); eauto.
    simpl in Htr'. congruence.
Qed.

Lemma drag_invoke cb env e W :
  drag_only_when_asked W -> drag_only_when_asked (invoke cb env e W).
Proof.
  intros H. destruct cb as [i|i|i x y|i]; simpl.
  - unfold listener, listener_test.
    repeat case_match;
      auto using drag_call_opt, drag_call_handler, drag_set_shouldListen.
  - unfold onPointerDown. destruct (frames W !! i) as [fr|] eqn:Hfr; [|done].
    destruct (shouldIgnore env (ignore fr) e) as [ign|]; [|done].
    case_match; [|by apply drag_set_shouldListen].
    apply andb_true_iff in H0 as [_ Htr].
    eapply (drag_startDragListener i e _
              (mkFrame (target fr) (handler fr) (window fr) (ignore fr)
                 (ignoreDragging fr) (capture fr) (detectIframe fr) _
                 (stopDragListener fr))); [|done|by apply drag_set_shouldListen].
    simpl. by rewrite list_lookup_alter_eq, Hfr.
  - unfold onPointerMove.
    repeat case_match; auto using drag_call_opt, drag_set_shouldListen.
  - done.
Qed.

Lemma drag_dispatchEvent w env e W :
  drag_only_when_asked W -> drag_only_when_asked (dispatchEvent w env e W).
Proof.
  unfold dispatchEvent. generalize (dispatch_order w (ev_type e) W) as l.
  intros l. revert W. induction l as [|a l IH]; intros W H; simpl; [done|].
  apply IH. unfold run_listener. case_match; auto using drag_invoke.
Qed.

Lemma drag_runTimer env W :
  drag_only_when_asked W -> drag_only_when_asked (runTimer env W).
Proof.
  intros H. unfold runTimer. destruct (timers W) as [|[i e] rest]; [done|].
  assert (Hpop : drag_only_when_asked
                   (mkWorld (_iOSWorkaround W) (frames W) (registry W) (next_id W)
                            (noopClick W) rest (calls W))) by (by destruct H).
  unfold onBlurTimeout. repeat case_match; auto using drag_call_handler.
Qed.

Lemma drag_call_stop sh W :
  drag_only_when_asked W -> drag_only_when_asked (call_stop sh W).
Proof.
  destruct sh as [|cleanup]; simpl; [done|].
  revert W. induction cleanup; simpl; auto using drag_call.
Qed.

Lemma drag_installed P env tgt h w o W :
  drag_only_when_asked W -> drag_only_when_asked (installed P env tgt h w o W).
Proof.
  intros [Hr Hf].
  destruct (installed_fields P env tgt h w o W) as (Hfr & Hreg & _).
  split; rewrite ?Hfr, ?Hreg.
  - intros r [Hin|Hin]%in_app_iff Hty.
    + destruct (Hr r Hin Hty) as (fr & Hl & Htr). exists fr.
      split; [by apply lookup_app_l_Some|done].
    + exfalso. unfold new_listeners in Hin.
      destruct (default false (o_detectIframe o));
        simpl in Hin; intuition (subst; discriminate).
  - intros j fr [[_ Hj]|[_ <-]]%lookup_snoc_Some Htr; eauto.
Qed.

Lemma drag_run P tr : drag_only_when_asked (world (run P tr start)).
Proof.
  apply (callbacks_run P drag_only_when_asked);
    auto using drag_dispatchEvent, drag_runTimer, drag_call_stop, drag_installed, wf_init.
  split; simpl; [intros r []|intros i fr Hfr; by rewrite lookup_nil in Hfr].
Qed.

End DragOnlyWhenAsked.

(** X13.  A detector whose [ignoreDragging] is falsy (the default) never
    has a pointermove listener and never holds a remover in
    [stopDragListener]; no pointermove event changes its closure state or
    makes it call its handler. *)
Theorem no_tracking_unless_asked P tr i fr w env e :
  frames (world (run P tr start)) !! i = Some fr ->
  truthy (ignoreDragging fr) = false ->
  ev_type e = pointermove ->
  drag_subscriptions i (world (run P tr start)) = [] /\
  stopDragListener fr = None /\
  frames (dispatchEvent w env e (world (run P tr start))) !! i = Some fr /\
  calls_of i (dispatchEvent w env e (world (run P tr start)))
    = calls_of i (world (run P tr start)).
Proof.
  intros Hfr Htr Hty.
  destruct (drag_run P tr) as [Hr Hf]. pose proof (wf_reachable P tr) as H.
  assert (Hnone : forall r, In r (registry (world (run P tr start))) ->
                    reg_type r = pointermove -> i <> cb_frame (reg_cb r)).
  { intros r Hin Hmv ->. destruct (Hr r Hin Hmv) as (fr' & Hfr' & Htr'). congruence. }
  split; [|split; [by apply (Hf i)|]].
  - unfold drag_subscriptions.
    rewrite (filter_ext_in _ (fun _ => false)).
    + assert (Hnil : forall l : list Registration, List.filter (fun _ => false) l = [])
        by (intros l; induction l; auto).
      apply Hnil.
    + intros r Hin. destruct (decide (reg_type r = pointermove)) as [Hmv|Hmv].
      * rewrite (proj2 (Nat.eqb_neq _ _)); [apply andb_false_r|].
        intros Heq. by apply (Hnone r Hin Hmv).
      * by rewrite bool_decide_false.
  - destruct (fold_others i env e
                (dispatch_order w (ev_type e) (world (run P tr start))) _ H)
      as (Hfo & Hco & _).
    + intros r (Hin & _ & Ht)%In_dispatch_order. apply Hnone; congruence.
    + unfold dispatchEvent. by rewrite Hfo, Hco.
Qed.

Lemma no_tracking_unless_asked_witness :
  drag_subscriptions 0
    (world (run desktop [Install (page None) 0 7 no_options;
                         Dispatch 0 (page None) (pointerdown_at 30 0 0)] start))
  = [].
Proof.
  apply (no_tracking_unless_asked desktop
           [Install (page None) 0 7 no_options;
            Dispatch 0 (page None) (pointerdown_at 30 0 0)] 0
           (mkFrame 0 7 0 [] (DragBool false) true false true None)
           0 (page None) (pointermove_to 9 9) eq_refl eq_refl eq_refl).
Defined.

(** ** The events a handler receives *)

Lemma detects_iframe_stable j : prim_stable (detects_iframe j).
Proof.
  split; unfold detects_iframe; simpl.
  - intros i b W (fr & Hfr & Hd).
    eapply alter_lookup_fwd in Hfr as (y & Hy & [->|[_ ->]]); eauto.
  - intros i f W (fr & Hfr & Hd).
    eapply alter_lookup_fwd in Hfr as (y & Hy & [->|[_ ->]]); eauto.
  - intros fn W H. by destruct fn.
  - done.
  - intros i e W H. unfold call_handler. by case_match.
  - done.
  - done.
Qed.

(** A world with no more listeners, timers and calls, and at least the
    frames with [detectIframe], is typed when the larger one is. *)
Lemma events_typed_mono W W' :
  (forall j, detects_iframe j W -> detects_iframe j W') ->
  (forall r, In r (registry W') -> reg_type r = blur -> In r (registry W)) ->
  (forall t, In t (timers W') -> In t (timers W)) ->
  (forall c, In c (calls W') -> In c (calls W)) ->
  wf W' -> events_typed W -> events_typed W'.
Proof.
  intros Hd Hr Ht Hc Hwf (Ha & Hb & Hcl). split; [|split].
  - intros r j Hin Hcb. apply Hd, (Ha r j); [|done].
    apply Hr; [done|]. by rewrite (wf_typed W' Hwf r Hin), Hcb.
  - intros j e Hin. destruct (Hb j e (Ht _ Hin)). auto.
  - intros c Hin. destruct (Hcl c (Hc _ Hin)) as [|[? ?]]; auto.
Qed.

Lemma events_typed_call_handler i e W :
  ev_type e = click \/ (ev_type e = blur /\ detects_iframe i W) ->
  events_typed W -> events_typed (call_handler i e W).
Proof.
  intros He (Ha & Hb & Hc). unfold call_handler.
  destruct (frames W !! i) as [fr|]; [|done].
  split; [|split]; simpl; auto.
  intros c [Hin|[<-|[]]]%in_app_iff; simpl; auto.
Qed.

Lemma events_typed_set_shouldListen i b W :
  wf W -> events_typed W -> events_typed (set_shouldListen i b W).
Proof.
  intros Hwf H. apply (events_typed_mono W); auto using wf_set_shouldListen.
  intros j. apply (ps_shouldListen _ (detects_iframe_stable j)).
Qed.

Lemma events_typed_call_opt fn W :
  wf W -> events_typed W -> events_typed (call_opt fn W).
Proof.
  intros Hwf H. apply (events_typed_mono W); auto using wf_call_opt.
  - intros j. apply stable_call_opt, detects_iframe_stable.
  - intros r Hin _. destruct fn as [[|id]|]; simpl in Hin; auto.
    eapply In_filter_sub; eauto.
  - intros t. by destruct fn as [[|id]|].
  - intros c. by destruct fn as [[|id]|].
Qed.

Lemma onPointerDown_fields i env e W :
  timers (onPointerDown i env e W) = timers W /\
  calls (onPointerDown i env e W) = calls W /\
  forall r, In r (registry (onPointerDown i env e W)) ->
            In r (registry W) \/ reg_type r = pointermove.
Proof.
  unfold onPointerDown, startDragListener.
  repeat (case_match; simpl); repeat split; auto;
    intros r [Hin|[<-|[]]]%in_app_iff; auto.
Qed.

Lemma registry_call_opt_sub fn W r :
  In r (registry (call_opt fn W)) -> In r (registry W).
Proof.
  destruct fn as [[|id]|]; simpl; auto. intros Hin. eapply In_filter_sub; eauto.
Qed.

Lemma timers_call_opt fn W : timers (call_opt fn W) = timers W.
Proof. by destruct fn as [[|id]|]. Qed.

Lemma onPointerMove_fields i x y e W :
  timers (onPointerMove i x y e W) = timers W /\
  calls (onPointerMove i x y e W) = calls W /\
  forall r, In r (registry (onPointerMove i x y e W)) -> In r (registry W).
Proof.
  unfold onPointerMove.
  repeat (case_match; simpl);
    rewrite ?timers_call_opt, ?calls_call_opt; repeat split; auto.
  intros r Hin%registry_call_opt_sub. done.
Qed.

Lemma events_typed_invoke cb env e W :
  wf W -> ev_type e = cb_type cb ->
  (forall j, cb = CbBlur j -> detects_iframe j W) ->
  events_typed W -> events_typed (invoke cb env e W).
Proof.
  intros Hwf Hty Hblur H.
  pose proof (wf_invoke W cb env e Hwf) as Hwf'.
  destruct cb as [i|i|i x y|i]; simpl in *.
  - unfold listener, listener_test in *.
    destruct (frames W !! i) as [fr|] eqn:Hfr; [|done].
    pose proof (wf_call_opt W (stopDragListener fr) Hwf) as Hwf1.
    pose proof (events_typed_call_opt (stopDragListener fr) W Hwf H) as H1.
    repeat case_match;
      auto 6 using events_typed_set_shouldListen, wf_set_shouldListen,
                   events_typed_call_handler.
  - destruct (onPointerDown_fields i env e W) as (Ht & Hc & Hr).
    apply (events_typed_mono W); auto.
    + intros j. apply (stable_invoke _ (detects_iframe_stable j) (CbPointerDown i) env e).
    + intros r Hin Hb. destruct (Hr r Hin) as [|Hmv]; [done|]. congruence.
    + intros t. by rewrite Ht.
    + intros c. by rewrite Hc.
  - destruct (onPointerMove_fields i x y e W) as (Ht & Hc & Hr).
    apply (events_typed_mono W); auto.
    + intros j. apply (stable_invoke _ (detects_iframe_stable j) (CbPointerMove i x y) env e).
    + intros t. by rewrite Ht.
    + intros c. by rewrite Hc.
  - destruct H as (Ha & Hb & Hc).
    unfold events_typed, detects_iframe in *. simpl.
    split; [|split]; auto.
    intros j e' [Hin|[Heq|[]]]%in_app_iff; [auto|].
    injection Heq as <- <-. auto.
Qed.

Lemma events_typed_dispatchEvent w env e W :
  wf W -> events_typed W -> events_typed (dispatchEvent w env e W).
Proof.
  intros Hwf H. unfold dispatchEvent.
  assert (Hl : forall r, In r (dispatch_order w (ev_type e) W) ->
                 ev_type e = cb_type (reg_cb r) /\
                 forall j, reg_cb r = CbBlur j -> detects_iframe j W).
  { intros r (Hin & _ & Ht)%In_dispatch_order. split.
    - by rewrite <- (wf_typed W Hwf r Hin).
    - intros j Hcb. destruct H as (Ha & _). eauto. }
  remember (dispatch_order w (ev_type e) W) as l eqn:El. clear El.
  revert W Hwf H Hl.
  induction l as [|a l IH]; intros W Hwf H Hl; simpl; [done|].
  destruct (Hl a (or_introl eq_refl)) as [Hty Hb].
  apply IH.
  - by apply wf_run_listener.
  - unfold run_listener. case_match; auto using events_typed_invoke.
  - intros r Hr. destruct (Hl r (or_intror Hr)) as [Hty' Hb']. split; [done|].
    intros j Hcb. unfold run_listener.
    case_match; [|by apply Hb'].
    apply (stable_invoke _ (detects_iframe_stable j)). by apply Hb'.
Qed.

Lemma events_typed_runTimer env W : events_typed W -> events_typed (runTimer env W).
Proof.
  intros H. pose proof H as (Ha & Hb & Hc). unfold runTimer.
  destruct (timers W) as [|[i e] rest] eqn:Ht; [done|].
  destruct (Hb i e (or_introl eq_refl)) as [Hty Hd].
  assert (Hpop : events_typed
                   (mkWorld (_iOSWorkaround W) (frames W) (registry W) (next_id W)
                            (noopClick W) rest (calls W))).
  { split; [|split]; auto. intros j e' Hin. apply Hb. by right. }
  unfold onBlurTimeout. repeat case_match; auto;
    (apply events_typed_call_handler; [|done]; right; split; [done|]; exact Hd).
Qed.

Lemma events_typed_call_stop sh W :
  wf W -> events_typed W -> events_typed (call_stop sh W).
Proof.
  intros Hwf H. destruct sh as [|cleanup]; [done|].
  apply (events_typed_mono W); auto using wf_call_stop;
    rewrite call_stop_eq; simpl; auto.
  intros r Hin _. eapply In_filter_sub; eauto.
Qed.

Lemma events_typed_installed P env tgt h w o W :
  wf W -> events_typed W -> events_typed (installed P env tgt h w o W).
Proof.
  intros Hwf (Ha & Hb & Hc).
  destruct (installed_fields P env tgt h w o W) as (Hf & Hr & Hcs & Hts).
  assert (Hd : forall j, detects_iframe j W ->
                 detects_iframe j (installed P env tgt h w o W)).
  { intros j (fr & Hfr & Hdet). exists fr. rewrite Hf.
    split; [by apply lookup_app_l_Some|done]. }
  split; [|split]; rewrite ?Hr, ?Hcs, ?Hts.
  - intros r j [Hin|Hin]%in_app_iff Hcb; [eauto|].
    unfold new_listeners in Hin.
    destruct (default false (o_detectIframe o)) eqn:Hdet;
      simpl in Hin; destruct Hin as [<-|[<-|Hin]]; try discriminate; [|done].
    destruct Hin as [<-|[]]. injection Hcb as <-.
    exists (new_frame tgt h w o). rewrite Hf. split; [|done].
    apply lookup_snoc_Some. by right.
  - intros j e Hin. destruct (Hb j e Hin). auto.
  - intros c Hin. destruct (Hc c Hin) as [|[? ?]]; auto.
Qed.

Lemma events_typed_run P tr : events_typed (world (run P tr start)).
Proof.
  apply (callbacks_run P (fun W => wf W /\ events_typed W)).
  - intros w env e W _ [Hwf H].
    auto using wf_dispatchEvent, events_typed_dispatchEvent.
  - intros env W [Hwf H]. auto using wf_runTimer, events_typed_runTimer.
  - intros sh W [Hwf H]. auto using wf_call_stop, events_typed_call_stop.
  - intros env tgt h o w W _ [Hwf H].
    auto using wf_installed, events_typed_installed.
  - apply wf_init.
  - split; [apply wf_init|]. split; [|split]; simpl; intros; contradiction.
Qed.

(** X14.  The events a handler is called with: always a click, or, for a
    detector created with [detectIframe], the blur that started a deferred
    check.  A detector without [detectIframe] only ever passes clicks to
    its handler, as the handler's type says. *)
Theorem handler_gets_click_or_blur P tr i fr e :
  frames (world (run P tr start)) !! i = Some fr ->
  In e (calls_of i (world (run P tr start))) ->
  ev_type e = click \/ (ev_type e = blur /\ detectIframe fr = true).
Proof.
  intros Hfr Hin. destruct (events_typed_run P tr) as (_ & _ & Hc).
  unfold calls_of in Hin. apply in_map_iff in Hin as (c & <- & Hin).
  apply filter_In in Hin as [Hin Hi]. apply Nat.eqb_eq in Hi.
  destruct (Hc c Hin) as [|[Hb (fr' & Hfr' & Hd)]]; [by left|].
  right. split; [done|]. congruence.
Qed.

Lemma handler_gets_click_or_blur_witness :
  ev_type blur_event = click \/
  (ev_type blur_event = blur /\
   detectIframe (mkFrame 0 7 0 [] (DragBool false) true true true None) = true).
Proof.
  apply (handler_gets_click_or_blur desktop
           [Install (page None) 0 7 iframe_detecting;
            Dispatch 0 (page None) blur_event;
            Timeout (page (Some 50))] 0
           (mkFrame 0 7 0 [] (DragBool false) true true true None)
           blur_event eq_refl).
  vm_compute. left. reflexivity.
Defined.

(** ** A press, its click and the tracking listener *)

Lemma drag_subscriptions_nil i W :
  untracked i W <-> drag_subscriptions i W = [].
Proof.
  unfold untracked, drag_subscriptions. split.
  - intros Hu. rewrite (filter_ext_in _ (fun _ => false)).
    + assert (Hnil : forall l : list Registration, List.filter (fun _ => false) l = [])
        by (intros l; induction l; auto).
      apply Hnil.
    + intros r Hin. destruct (decide (reg_type r = pointermove)) as [Hmv|Hmv].
      * rewrite (proj2 (Nat.eqb_neq _ _)); [apply andb_false_r|]. by apply Hu.
      * by rewrite bool_decide_false.
  - intros Hnil r Hin Hmv Hi.
    assert (Hr : In r (List.filter
                         (fun r => bool_decide (reg_type r = pointermove)
                                   && (cb_frame (reg_cb r) =? i)) (registry W))).
    { apply filter_In. split; [done|].
      by rewrite bool_decide_true, Hi, Nat.eqb_refl. }
    by rewrite Hnil in Hr.
Qed.

Lemma registry_listener i env e W :
  registry (listener i env e W)
  = registry (call_opt (match frames W !! i with
                        | Some fr => stopDragListener fr
                        | None => None
                        end) W).
Proof.
  unfold listener, listener_test.
  repeat case_match; rewrite ?registry_call_handler; done.
Qed.

(** What a closure of frame [j] can do to the listeners: remove some, or
    add one pointermove listener of frame [j]. *)
Lemma invoke_registry cb env e W r :
  In r (registry (invoke cb env e W)) ->
  In r (registry W) \/
  (reg_type r = pointermove /\ cb_frame (reg_cb r) = cb_frame cb /\
   reg_id r = next_id W).
Proof.
  destruct cb as [j|j|j x y|j]; simpl.
  - rewrite registry_listener. intros Hin%registry_call_opt_sub. by left.
  - unfold onPointerDown, startDragListener.
    repeat (case_match; simpl); auto;
      intros [Hin|[<-|[]]]%in_app_iff; auto.
  - intros Hin. left. by apply (onPointerMove_fields j x y e W).
  - auto.
Qed.

Section Tracking.
Context (i : nat) (env : Env) (e : Event).

Lemma fold_preserves (J : World -> Prop) l W :
  (forall cb W, wf W -> i <> cb_frame cb -> J W -> J (invoke cb env e W)) ->
  other_frames i l -> wf W -> J W -> J (fold_left (run_listener env e) l W).
Proof.
  intros HJ. revert W. induction l as [|a l IH]; intros W Hl Hwf H; simpl; [done|].
  apply IH.
  - intros r Hr. apply Hl. by right.
  - by apply wf_run_listener.
  - unfold run_listener. case_match; [|done].
    apply HJ; auto. apply Hl. by left.
Qed.

Lemma dispatch_split W r :
  wf W -> In r (registry W) -> cb_frame (reg_cb r) = i ->
  reg_type r <> pointermove -> ev_type e = reg_type r ->
  exists l1 l2,
    other_frames i l1 /\ other_frames i l2 /\
    dispatchEvent (reg_window r) env e W
    = fold_left (run_listener env e) l2
        (invoke (reg_cb r) env e (fold_left (run_listener env e) l1 W)).
Proof.
  intros H Hr Hi Hnm Hty. unfold dispatchEvent. rewrite Hty.
  assert (Hin : In r (dispatch_order (reg_window r) (reg_type r) W))
    by (by apply In_dispatch_order).
  pose proof (NoDup_dispatch_order (reg_window r) (reg_type r) W H) as Hnd.
  apply in_split in Hin as (l1 & l2 & Hord). rewrite Hord in Hnd |- *.
  assert (Hothers : other_frames i (l1 ++ l2)).
  { intros r' Hr' Heq.
    assert (Hr'' : In r' (dispatch_order (reg_window r) (reg_type r) W)).
    { rewrite Hord. apply in_app_iff. apply in_app_iff in Hr' as [|]; simpl; auto. }
    apply In_dispatch_order in Hr'' as (Hreg & _ & Hty').
    apply (NoDup_remove_2 _ _ _ Hnd).
    replace r with r'; [done|].
    apply (wf_single W H r' r); auto; [|congruence].
    apply cb_determined.
    - rewrite <- (wf_typed W H r' Hreg), <- (wf_typed W H r Hr). done.
    - congruence.
    - rewrite <- (wf_typed W H r' Hreg). congruence. }
  assert (H1 : other_frames i l1) by (intros ? ?; apply Hothers, in_app_iff; auto).
  assert (H2 : other_frames i l2) by (intros ? ?; apply Hothers, in_app_iff; auto).
  exists l1, l2. split; [done|]. split; [done|].
  rewrite fold_left_app. simpl. f_equal.
  destruct (fold_others i env e l1 W H H1) as (_ & _ & Hk).
  unfold run_listener at 1. by rewrite (registered_In r _ (Hk r Hr Hnm)).
Qed.

Lemma untracked_other cb W :
  wf W -> i <> cb_frame cb -> untracked i W -> untracked i (invoke cb env e W).
Proof.
  intros _ Hne Hu r Hin Hmv.
  destruct (invoke_registry cb env e W r Hin) as [Hold|(_ & Hf & _)]; [auto|congruence].
Qed.

Lemma tracked_other cb W :
  wf W -> i <> cb_frame cb ->
  tracked_by_remover i W -> tracked_by_remover i (invoke cb env e W).
Proof.
  intros _ Hne Ht r Hin Hmv Hi.
  destruct (invoke_other W i cb env e Hne) as [Hf _]. rewrite Hf.
  destruct (invoke_registry cb env e W r Hin) as [Hold|(_ & Hf' & _)];
    [auto|congruence].
Qed.

Lemma press_tracks W :
  untracked i W -> tracked_by_remover i (onPointerDown i env e W).
Proof.
  intros Hu r Hin Hmv Hi.
  destruct (invoke_registry (CbPointerDown i) env e W r Hin) as [Hold|(_ & _ & Hid)];
    [by destruct (Hu r Hold Hmv)|].
  simpl in Hin. unfold onPointerDown, startDragListener in *.
  destruct (frames W !! i) as [fr|] eqn:Hfr; simpl in *.
  2:{ exfalso. by apply (Hu r Hin Hmv). }
  destruct (shouldIgnore env (ignore fr) e) as [ign|]; simpl in *.
  2:{ exfalso. by apply (Hu r Hin Hmv). }
  rewrite list_lookup_alter_eq, Hfr in *. simpl in *.
  destruct (_ && truthy (ignoreDragging fr)); simpl in *.
  - rewrite !list_lookup_alter_eq, Hfr. simpl. rewrite Hid. eauto.
  - exfalso. by apply (Hu r Hin Hmv).
Qed.

Lemma click_untracks W :
  tracked_by_remover i W -> untracked i (listener i env e W).
Proof.
  intros Ht r Hin Hmv Hi. rewrite registry_listener in Hin.
  pose proof (registry_call_opt_sub _ _ _ Hin) as Hold.
  destruct (Ht r Hold Hmv Hi) as (fr & Hfr & Hs).
  rewrite Hfr, Hs in Hin. simpl in Hin.
  apply filter_In in Hin as [_ Hid]. by rewrite Nat.eqb_refl in Hid.
Qed.

End Tracking.

(** X15.  A press and the click that follows it leave no pointermove
    listener of the detector behind, provided it had none before the
    press: the press adds at most the one its [stopDragListener] removes,
    and the click removes it. *)
Theorem press_and_click_leave_no_tracking P tr i fr rc rd env0 e0 env e :
  frames (world (run P tr start)) !! i = Some fr ->
  In rc (registry (world (run P tr start))) -> reg_cb rc = CbListener i ->
  In rd (registry (world (run P tr start))) -> reg_cb rd = CbPointerDown i ->
  ev_type e0 = pointerdown -> ev_type e = click ->
  drag_subscriptions i (world (run P tr start)) = [] ->
  drag_subscriptions i
    (dispatchEvent (window fr) env e
       (dispatchEvent (window fr) env0 e0 (world (run P tr start))))
  = [].
Proof.
  intros Hfr Hrc Hcbc Hrd Hcbd Hty0 Hty Hnone.
  pose proof (wf_reachable P tr) as H.
  set (W := world (run P tr start)) in *.
  apply drag_subscriptions_nil in Hnone.
  assert (Hwin : forall r c, In r (registry W) -> reg_cb r = c -> cb_frame c = i ->
                   reg_window r = window fr).
  { intros r c Hr <- Hi. destruct (wf_owner W H r Hr) as (fr' & Hfr' & ->). congruence. }
  assert (Htyd : reg_type rd = pointerdown) by (rewrite (wf_typed W H rd Hrd), Hcbd; done).
  assert (Htyc : reg_type rc = click) by (rewrite (wf_typed W H rc Hrc), Hcbc; done).
  (* the press *)
  destruct (dispatch_split i env0 e0 W rd H Hrd) as (l1 & l2 & Hl1 & Hl2 & Heq);
    rewrite ?Hcbd, ?Htyd; try done.
  rewrite (Hwin rd _ Hrd Hcbd eq_refl), Hcbd in Heq. simpl in Heq.
  set (Wa := fold_left (run_listener env0 e0) l1 W) in *.
  assert (Hwfa : wf Wa) by (by apply wf_fold_listeners).
  assert (Hua : untracked i Wa).
  { apply (fold_preserves i env0 e0 (untracked i)); auto using untracked_other. }
  assert (Htb : tracked_by_remover i (onPointerDown i env0 e0 Wa))
    by (by apply press_tracks).
  set (W1 := dispatchEvent (window fr) env0 e0 W) in *.
  assert (Hwf1 : wf W1) by (by apply wf_dispatchEvent).
  assert (Ht1 : tracked_by_remover i W1).
  { rewrite Heq. apply (fold_preserves i env0 e0 (tracked_by_remover i));
      auto using tracked_other. by apply wf_onPointerDown. }
  (* the click *)
  assert (Hrc1 : In rc (registry W1)).
  { apply dispatch_keeps; auto. congruence. }
  destruct (dispatch_split i env e W1 rc Hwf1 Hrc1) as (k1 & k2 & Hk1 & Hk2 & Heq');
    rewrite ?Hcbc, ?Htyc; try done.
  rewrite (Hwin rc _ Hrc Hcbc eq_refl), Hcbc in Heq'. simpl in Heq'.
  set (Wc := fold_left (run_listener env e) k1 W1) in *.
  assert (Hwfc : wf Wc) by (by apply wf_fold_listeners).
  assert (Htc : tracked_by_remover i Wc).
  { apply (fold_preserves i env e (tracked_by_remover i)); auto using tracked_other. }
  apply drag_subscriptions_nil. rewrite Heq'.
  apply (fold_preserves i env e (untracked i)); auto using untracked_other.
  - by apply wf_listener.
  - by apply click_untracks.
Qed.

Lemma press_and_click_leave_no_tracking_witness :
  drag_subscriptions 0
    (dispatchEvent 0 (page None) (click_at 30 1)
       (dispatchEvent 0 (page None) (pointerdown_at 30 0 0)
          (world (run desktop [Install (page None) 0 7 (dragging None)] start))))
  = [].
Proof.
  apply (press_and_click_leave_no_tracking desktop
           [Install (page None) 0 7 (dragging None)] 0
           (mkFrame 0 7 0 [] (DragObject None) true false true None)
           (mkReg 0 0 click (CbListener 0) true true)
           (mkReg 1 0 pointerdown (CbPointerDown 0) true false)
           (page None) (pointerdown_at 30 0 0) (page None) (click_at 30 1)
           eq_refl (or_introl eq_refl) eq_refl (or_intror (or_introl eq_refl)) eq_refl
           eq_refl eq_refl eq_refl).
Defined.

(** ** An unresolved target, on click and on press *)

(** X16.  While the target resolves to nothing, a click calls nothing and
    leaves [shouldListen] as it was, the ignore list not being looked at;
    a press calls nothing and sets [shouldListen] to false whatever the
    ignore check answers, and leaves the flag as it was only when the
    ignore check throws. *)
Theorem unresolved_target_on_click_and_press P tr i fr rc rd env e :
  frames (world (run P tr start)) !! i = Some fr ->
  In rc (registry (world (run P tr start))) -> reg_cb rc = CbListener i ->
  In rd (registry (world (run P tr start))) -> reg_cb rd = CbPointerDown i ->
  unrefElement env (target fr) = None ->
  (ev_type e = click ->
     calls_of i (dispatchEvent (window fr) env e (world (run P tr start)))
       = calls_of i (world (run P tr start)) /\
     get_shouldListen i (dispatchEvent (window fr) env e (world (run P tr start)))
       = shouldListen fr) /\
  (ev_type e = pointerdown ->
     calls_of i (dispatchEvent (window fr) env e (world (run P tr start)))
       = calls_of i (world (run P tr start)) /\
     get_shouldListen i (dispatchEvent (window fr) env e (world (run P tr start)))
       = match shouldIgnore env (ignore fr) e with
         | Some _ => false
         | None => shouldListen fr
         end).
Proof.
  intros Hfr Hrc Hcbc Hrd Hcbd Hnone. pose proof (wf_reachable P tr) as H. split.
  - intros Hty.
    destruct (dispatch_click_self i env e _ fr rc H Hfr Hrc Hcbc Hty) as [-> ->].
    unfold listener_calls, listener_shouldListen. by rewrite Hnone, app_nil_r.
  - intros Hty.
    destruct (dispatch_pointerdown_self i env e _ fr rd H Hfr Hrd Hcbd Hty) as [-> ->].
    unfold pointerdown_shouldListen. rewrite Hnone.
    destruct (shouldIgnore env (ignore fr) e); simpl; [|done].
    by rewrite andb_false_r.
Qed.

Lemma unresolved_target_on_click_and_press_witness :
  get_shouldListen 0
    (dispatchEvent 0 page_unmounted (pointerdown_at 30 0 0)
       (world (run desktop [Install page_unmounted 0 7 no_options] start)))
  = false /\
  get_shouldListen 0
    (dispatchEvent 0 page_unmounted (pointerdown_at 30 0 0)
       (world (run desktop
                 [Install page_unmounted 0 7 toolbar_and_invalid_ignored] start)))
  = true.
Proof.
  destruct (unresolved_target_on_click_and_press desktop
              [Install page_unmounted 0 7 no_options] 0
              (mkFrame 0 7 0 [] (DragBool false) true false true None)
              (mkReg 0 0 click (CbListener 0) true true)
              (mkReg 1 0 pointerdown (CbPointerDown 0) true false)
              page_unmounted (pointerdown_at 30 0 0)
              eq_refl (or_introl eq_refl) eq_refl (or_intror (or_introl eq_refl))
              eq_refl eq_refl) as [_ Hpress].
  destruct (unresolved_target_on_click_and_press desktop
              [Install page_unmounted 0 7 toolbar_and_invalid_ignored] 0
              (mkFrame 0 7 0 [IgnoreSelector ".toolbar"; IgnoreSelector EmptyString]
                       (DragBool false) true false true None)
              (mkReg 0 0 click (CbListener 0) true true)
              (mkReg 1 0 pointerdown (CbPointerDown 0) true false)
              page_unmounted (pointerdown_at 30 0 0)
              eq_refl (or_introl eq_refl) eq_refl (or_intror (or_introl eq_refl))
              eq_refl eq_refl) as [_ Hthrows].
  split; [apply Hpress|apply Hthrows]; reflexivity.
Defined.
